(** * Conway's Game of Life: the program of Conway-Game-Of-Life.cpp

    The program keeps two [ROW] x [COL] arrays of [int], fills the first one
    with [rand() % 2], and then repeats: compute the next generation into the
    second array, print it, ask the user whether to quit, compare the two
    arrays, and copy the second over the first.

    The embedding follows the source statement by statement.  The arrays are
    lists of rows held in a [state]; the functions of the source that take an
    array take its name here, as the source passes a pointer.  Every cell
    access goes through [load] and [store], which fault ([None]) outside the
    array and record the access in a trace, so that what a function reads and
    writes can be stated next to what it returns.  [int] values are integers
    of [Z]: the cells hold 0 or 1 and the neighbour counter stays below 9;
    the generation counter, which grows for as long as the program runs, is
    kept in the range of a 32-bit [int] by [int_wrap]. *)

From stdpp Require Import base list strings pretty.
From Stdlib Require Import ZArith Lia Ascii.

Local Open Scope Z_scope.

(** ** Constants and global tables *)

Definition ROW : Z := 5.
Definition COL : Z := 4.

Definition rowCell : list Z := [ -1; -1; -1;  0;  1; 0; 1; 1 ].
Definition colCell : list Z := [ -1;  1;  0; -1; -1; 1; 0; 1 ].

(** The range of [int], 32 bits wide. *)
Definition INT_MIN : Z := -2147483648.
Definition INT_MAX : Z := 2147483647.

(** The [int] an arithmetic result ends as: results past [INT_MAX] come back
    from [INT_MIN], as they do in the compiled program. *)
Definition int_wrap (z : Z) : Z := (z - INT_MIN) `mod` 4294967296 + INT_MIN.

(** [rowCell[i]] and [colCell[i]], for an index of the table. *)
Definition table_at (t : list Z) (i : Z) : Z := nth (Z.to_nat i) t 0.

(** ** Arrays *)

Abbreviation grid := (list (list Z)).

(** [b[x][y]], defined on the cells of [b] only. *)
Definition cell_get (b : grid) (x y : Z) : option Z :=
  if (0 <=? x) && (0 <=? y)
  then row ← b !! Z.to_nat x; row !! Z.to_nat y
  else None.

(** [b[x][y] = v], defined on the cells of [b] only. *)
Definition cell_set (b : grid) (x y v : Z) : option grid :=
  if (0 <=? x) && (0 <=? y)
  then row ← b !! Z.to_nat x;
       _ ← row !! Z.to_nat y;
       Some (<[Z.to_nat x := <[Z.to_nat y := v]> row]> b)
  else None.

(** An [int [ROW][COL]]. *)
Definition wf_board (b : grid) : Prop :=
  length b = Z.to_nat ROW ∧ Forall (λ row, length row = Z.to_nat COL) b.

(** ** Program state *)

(** The two arrays of [main]. *)
Inductive array := currentGen | nextGen.

Global Instance array_eq_dec : EqDecision array.
Proof. solve_decision. Defined.

Inductive event :=
  | CellRead (a : array) (x y : Z)
  | CellWrite (a : array) (x y v : Z)
  | Printed (generation : Z) (b : grid)
  | Prompted
  | StillLifeMsg.

Record state := State {
  mem_currentGen : grid;
  mem_nextGen : grid;
  generationCounter : Z;
  rand_source : nat → N;       (* the values rand() is going to return *)
  rand_calls : nat;            (* how many of them were taken *)
  stdin : list Z;              (* the characters not read yet *)
  trace : list event;
}.

Definition sel (s : state) (a : array) : grid :=
  match a with currentGen => mem_currentGen s | nextGen => mem_nextGen s end.

Definition upd (s : state) (a : array) (b : grid) : state :=
  match a with
  | currentGen =>
      State b (mem_nextGen s) (generationCounter s) (rand_source s)
        (rand_calls s) (stdin s) (trace s)
  | nextGen =>
      State (mem_currentGen s) b (generationCounter s) (rand_source s)
        (rand_calls s) (stdin s) (trace s)
  end.

Definition logs (es : list event) (s : state) : state :=
  State (mem_currentGen s) (mem_nextGen s) (generationCounter s)
    (rand_source s) (rand_calls s) (stdin s) (trace s ++ es).

Definition log (e : event) (s : state) : state := logs [e] s.

(** ** Computations: state passing, [None] for a fault *)

Definition M (A : Type) : Type := state → option (A * state).

Definition ret {A} (a : A) : M A := λ s, Some (a, s).

Definition bind {A B} (m : M A) (k : A → M B) : M B :=
  λ s, match m s with
       | Some (a, s') => k a s'
       | None => None
       end.

Notation "x <- m ;; k" := (bind m (λ x, k))
  (at level 100, m at next level, right associativity).
Notation "m ;; k" := (bind m (λ _, k))
  (at level 100, right associativity).

Definition when (c : bool) (m : M unit) : M unit := if c then m else ret tt.

Definition load (a : array) (x y : Z) : M Z :=
  λ s, match cell_get (sel s a) x y with
       | Some v => Some (v, log (CellRead a x y) s)
       | None => None
       end.

Definition store (a : array) (x y v : Z) : M unit :=
  λ s, match cell_set (sel s a) x y v with
       | Some b => Some (tt, log (CellWrite a x y v) (upd s a b))
       | None => None
       end.

(** [for (int i = lo; i < hi; i++) a = body(i, a);] *)
Fixpoint for_fold_from {A} (n : nat) (i : Z) (body : Z → A → M A) (a : A) : M A :=
  match n with
  | O => ret a
  | S n' => a' <- body i a ;; for_fold_from n' (i + 1) body a'
  end.

Definition for_fold {A} (lo hi : Z) (body : Z → A → M A) (a : A) : M A :=
  for_fold_from (Z.to_nat (hi - lo)) lo body a.

(** [for (int i = lo; i < hi; i++) body(i);] *)
Definition for_ (lo hi : Z) (body : Z → M unit) : M unit :=
  for_fold lo hi (λ i _, body i) tt.

(** [for (int i = lo; i < hi; i++) body(i);] where the body may [return]:
    [Some v] is a [return v] that leaves every enclosing loop. *)
Fixpoint for_ret_from {R} (n : nat) (i : Z) (body : Z → M (option R)) : M (option R) :=
  match n with
  | O => ret None
  | S n' =>
      r <- body i ;;
      match r with
      | Some v => ret (Some v)
      | None => for_ret_from n' (i + 1) body
      end
  end.

Definition for_ret {R} (lo hi : Z) (body : Z → M (option R)) : M (option R) :=
  for_ret_from (Z.to_nat (hi - lo)) lo body.

(** ** The functions of the source *)

(** [isSafe]: the array argument is not used. *)
Definition isSafe (matrix : array) (x y : Z) : bool :=
  (0 <=? x) && (x <? ROW) && (0 <=? y) && (y <? COL).

(** [countNeighbors]: [&&] reads [board[x][y]] only when [isSafe] holds. *)
Definition countNeighbors (board : array) (r c : Z) : M Z :=
  for_fold 0 8 (λ i counter,
    let x := r + table_at rowCell i in
    let y := c + table_at colCell i in
    if isSafe board x y then
      v <- load board x y ;;
      ret (if v =? 1 then counter + 1 else counter)
    else ret counter) 0.

(** [generationsAreIdentical]: of the two operands of [!=], the cell of
    [board1] is read first. *)
Definition generationsAreIdentical (board1 board2 : array) (r : Z) : M bool :=
  res <- for_ret 0 r (λ i,
           for_ret 0 COL (λ j,
             v1 <- load board1 i j ;;
             v2 <- load board2 i j ;;
             if negb (v1 =? v2) then ret (Some false) else ret None)) ;;
  ret (match res with Some b => b | None => true end).

(** [makeCurrentGenSameAsNextGen] *)
Definition makeCurrentGenSameAsNextGen (board1 board2 : array) (r : Z) : M unit :=
  for_ 0 r (λ i,
    for_ 0 COL (λ j,
      v <- load board2 i j ;;
      store board1 i j v ;;
      store board2 i j 0)).

(** [printBoard]: the board goes to the console under its generation number. *)
Definition printBoard (board : array) (generation : Z) : M unit :=
  λ s, Some (tt, log (Printed generation (sel s board)) s).

(** [rand()]: the next value of the source, an [int] from 0 to [RAND_MAX]. *)
Definition rand : M Z :=
  λ s, Some (Z.of_N (rand_source s (rand_calls s)),
             State (mem_currentGen s) (mem_nextGen s) (generationCounter s)
               (rand_source s) (S (rand_calls s)) (stdin s) (trace s)).

(** [cin.get()] stored in a [char]: the next character, or [EOF] (-1). *)
Definition cin_get : M Z :=
  λ s, match stdin s with
       | c :: rest =>
           Some (c, State (mem_currentGen s) (mem_nextGen s) (generationCounter s)
                      (rand_source s) (rand_calls s) rest (trace s))
       | [] => Some (-1, s)
       end.

(** [int generationCounter = 1;] *)
Definition generationCounter_init : M unit :=
  λ s, Some (tt, State (mem_currentGen s) (mem_nextGen s) 1
                   (rand_source s) (rand_calls s) (stdin s) (trace s)).

(** [generationCounter++]: the value before the increment is the result;
    the counter is an [int], and the increment of [INT_MAX] is [INT_MIN]. *)
Definition generationCounter_post_incr : M Z :=
  λ s, Some (generationCounter s,
             State (mem_currentGen s) (mem_nextGen s)
               (int_wrap (generationCounter s + 1))
               (rand_source s) (rand_calls s) (stdin s) (trace s)).

Definition cout (e : event) : M unit := λ s, Some (tt, log e s).

(** Lines 46-50 of [main]: the first generation. *)
Definition randomSeed : M unit :=
  for_ 0 ROW (λ i,
    for_ 0 COL (λ j,
      v <- rand ;;
      store currentGen i j (Z.rem v 2))).

(** Lines 64-84 of [main]: the cell [(i, j)] of the next generation.
    [SHOW_NEIGHBOR_COUNT] is false, the debugging output is left out. *)
Definition nextCell (i j : Z) : M unit :=
  store nextGen i j 0 ;;
  totalNeighbors <- countNeighbors currentGen i j ;;
  v <- load currentGen i j ;;
  if v =? 1 then
    when (totalNeighbors <? 2) (store nextGen i j 0) ;;
    when ((totalNeighbors =? 2) || (totalNeighbors =? 3)) (store nextGen i j 1) ;;
    when (3 <? totalNeighbors) (store nextGen i j 0)
  else
    when (totalNeighbors =? 3) (store nextGen i j 1).

(** Lines 60-89 of [main]: the next generation, from [currentGen] into
    [nextGen]. *)
Definition computeNextGeneration : M unit :=
  for_ 0 ROW (λ i, for_ 0 COL (λ j, nextCell i j)).

Inductive outcome := Stable | UserQuit.

Definition char_q : Z := 113.
Definition char_Q : Z := 81.

(** Lines 95-106 of [main]: what the loop does with the character [c] it
    read; [Some o] is a [break]. *)
Definition after_prompt (c : Z) : M (option outcome) :=
  if (c =? char_q) || (c =? char_Q) then ret (Some UserQuit)
  else
    same <- generationsAreIdentical currentGen nextGen ROW ;;
    if same then
      cout StillLifeMsg ;;
      ret (Some Stable)
    else
      makeCurrentGenSameAsNextGen currentGen nextGen ROW ;;
      ret None.

(** Lines 56-106 of [main]: one pass through the body of [do ... while (true)]. *)
Definition generation_step : M (option outcome) :=
  computeNextGeneration ;;
  n <- generationCounter_post_incr ;;
  printBoard nextGen n ;;
  cout Prompted ;;
  c <- cin_get ;;
  after_prompt c.

(** The loop of [main], for at most [fuel] generations: [None] when the loop
    is still running after them. *)
Fixpoint generations (fuel : nat) : M (option outcome) :=
  match fuel with
  | O => ret None
  | S fuel' =>
      r <- generation_step ;;
      match r with
      | Some o => ret (Some o)
      | None => generations fuel'
      end
  end.

(** Lines 41-52 of [main]: up to the loop.  The two arrays are declared
    without an initialiser: they start with whatever the state holds. *)
Definition main_init : M unit :=
  randomSeed ;;
  generationCounter_init ;;
  n <- generationCounter_post_incr ;;
  printBoard currentGen n.

Definition main (fuel : nat) : M (option outcome) :=
  main_init ;; generations fuel.

(** * Vocabulary of the properties *)

(** ** Positions, states and traces *)

(** [(x, y)] is a cell of an [int [ROW][COL]]. *)
Definition in_bounds (x y : Z) : Prop := 0 ≤ x < ROW ∧ 0 ≤ y < COL.

(** What the array operations leave alone: the counter and the two streams. *)
Definition same_io (s s' : state) : Prop :=
  generationCounter s' = generationCounter s ∧
  rand_source s' = rand_source s ∧
  rand_calls s' = rand_calls s ∧
  stdin s' = stdin s.

(** [s'] continues the trace of [s] with events that all satisfy [P]. *)
Definition extends (P : event → Prop) (s s' : state) : Prop :=
  ∃ new, trace s' = trace s ++ new ∧ Forall P new.

(** ** Neighbours *)

(** The position the loop of [countNeighbors] looks at in its round [i]. *)
Definition neighbor (r c i : Z) : Z * Z :=
  (r + table_at rowCell i, c + table_at colCell i).

(** The positions of the rounds [0 .. k-1]. *)
Definition neighbors_upto (r c k : Z) : list (Z * Z) := neighbor r c <$> seqZ 0 k.

Definition inside (p : Z * Z) : Prop := in_bounds p.1 p.2.

Definition live_at (b : grid) (p : Z * Z) : Prop :=
  in_bounds p.1 p.2 ∧ cell_get b p.1 p.2 = Some 1.

Global Instance in_bounds_dec x y : Decision (in_bounds x y).
Proof. unfold in_bounds. apply _. Defined.

Global Instance inside_dec p : Decision (inside p).
Proof. unfold inside. apply _. Defined.

Global Instance live_at_dec b p : Decision (live_at b p).
Proof. unfold live_at. apply _. Defined.

Definition read_of (a : array) (p : Z * Z) : event := CellRead a p.1 p.2.

(** The eight offsets of a neighbour, as the specification lists them. *)
Definition neighbor_offsets : list (Z * Z) :=
  [ (-1, -1); (-1, 0); (-1, 1); (0, -1); (0, 1); (1, -1); (1, 0); (1, 1) ].

Definition shift (r c : Z) (d : Z * Z) : Z * Z := (r + d.1, c + d.2).

(** The neighbours of [(r, c)]: the cell shifted by each offset. *)
Definition neighbors (r c : Z) : list (Z * Z) := shift r c <$> neighbor_offsets.

(** The number of live cells of [b] among the neighbours of [(r, c)] that lie
    on the board. *)
Definition live_neighbors (b : grid) (r c : Z) : Z :=
  Z.of_nat (length (filter (live_at b) (neighbors r c))).

(** ** The next generation *)

(** What lines 64-84 leave in [nextGen[i][j]] for a cell that holds [v] and
    has [n] live neighbours: the four assignments, the last one taken wins. *)
Definition next_state (v n : Z) : Z :=
  if v =? 1 then
    let after_default := 0 in
    let after_under := if n <? 2 then 0 else after_default in
    let after_lives := if (n =? 2) || (n =? 3) then 1 else after_under in
    if 3 <? n then 0 else after_lives
  else
    if n =? 3 then 1 else 0.

(** The accesses of the next-generation loops: reads of [currentGen], writes
    of 0 or 1 to [nextGen], all of them on the board. *)
Definition next_event (e : event) : Prop :=
  match e with
  | CellRead a x y => a = currentGen ∧ in_bounds x y
  | CellWrite a x y v => a = nextGen ∧ in_bounds x y ∧ (v = 0 ∨ v = 1)
  | _ => False
  end.

(** A stretch of the computation of the cell [(i, j)]: it leaves [currentGen]
    and the other cells of [nextGen] as they are. *)
Definition cell_step (i j : Z) (s s' : state) : Prop :=
  sel s' currentGen = sel s currentGen ∧
  wf_board (sel s' nextGen) ∧
  (∀ x y, (x, y) ≠ (i, j) →
     cell_get (sel s' nextGen) x y = cell_get (sel s nextGen) x y) ∧
  same_io s s' ∧
  extends next_event s s'.

(** The value of a cell of the board, for a position on it. *)
Definition cell (b : grid) (x y : Z) : Z := default 0 (cell_get b x y).

(** [(x, y)] comes before [(i, j)] in row-major order. *)
Definition before (i j x y : Z) : Prop := x < i ∨ (x = i ∧ y < j).

(** The cell [(x, y)] of the generation after [b]. *)
Definition next_value (b : grid) (x y : Z) : Z :=
  next_state (cell b x y) (live_neighbors b x y).

(** The generation after [b], as a board of its own. *)
Definition next_grid (b : grid) : grid :=
  (λ x, next_value b x <$> seqZ 0 COL) <$> seqZ 0 ROW.

(** ** Walking two boards *)

(** The cells before [(i, j)], in row-major order. *)
Definition cells_before (i j : Z) : list (Z * Z) :=
  (seqZ 0 i ≫= λ x, pair x <$> seqZ 0 COL) ++ (pair i <$> seqZ 0 j).

(** One comparison: a read of each board at the same cell. *)
Definition compare_reads (board1 board2 : array) (p : Z * Z) : list event :=
  [read_of board1 p; read_of board2 p].

(** What a run of [generationsAreIdentical] that compared the cells [ps] did. *)
Definition compared (board1 board2 : array) (ps : list (Z * Z)) (s s' : state) : Prop :=
  s' = logs (ps ≫= compare_reads board1 board2) s.

(** The boards agree on the cells before [(i, j)]. *)
Definition agree_before (b1 b2 : grid) (i j : Z) : Prop :=
  ∀ x y, in_bounds x y → before i j x y → cell_get b1 x y = cell_get b2 x y.

(** The first cell, in row-major order, at which the boards differ. *)
Definition first_mismatch (b1 b2 : grid) (i j : Z) : Prop :=
  in_bounds i j ∧ cell_get b1 i j ≠ cell_get b2 i j ∧ agree_before b1 b2 i j.

(** The board whose cells are all dead. *)
Definition dead_grid : grid := replicate (Z.to_nat ROW) (replicate (Z.to_nat COL) 0).

(** Every cell holds 0 or 1. *)
Definition binary (b : grid) : Prop :=
  ∀ x y v, cell_get b x y = Some v → v = 0 ∨ v = 1.

(** The accesses of the seeding loops: writes of 0 or 1 to [currentGen]. *)
Definition seed_event (e : event) : Prop :=
  match e with
  | CellWrite a x y v => a = currentGen ∧ in_bounds x y ∧ (v = 0 ∨ v = 1)
  | _ => False
  end.

(** ** The loop of [main] *)

(** The character the next [cin.get()] returns. *)
Definition next_char (s : state) : Z :=
  match stdin s with c :: _ => c | [] => -1 end.

Definition is_quit (c : Z) : bool := (c =? char_q) || (c =? char_Q).

(** ** Sample boards and states *)

Definition blinker : grid :=
  [ [0; 0; 0; 0]; [1; 1; 1; 0]; [0; 0; 0; 0]; [0; 0; 0; 0]; [0; 0; 0; 0] ].

Definition block : grid :=
  [ [0; 0; 0; 0]; [0; 1; 1; 0]; [0; 1; 1; 0]; [0; 0; 0; 0]; [0; 0; 0; 0] ].

(** A [nextGen] that was never written: whatever the stack held. *)
Definition stale : grid :=
  [ [7; -3; 0; 1]; [2; 2; 2; 2]; [1; 0; 9; 0]; [0; 0; 5; 0]; [4; 1; 1; 8] ].

(** The program at the top of the loop, with the characters [input] waiting. *)
Definition at_loop (current next : grid) (input : list Z) : state :=
  State current next 2 (λ k, N.of_nat (3 * k + 1)) 20 input [].

(** The transition as the specification words it: the stability check comes
    first, the quit request is looked at only when the check fails. *)
Definition spec_transition (stable quit : bool) : option outcome :=
  if stable then Some Stable else if quit then Some UserQuit else None.

(** The value of the stability check on the boards a pass of the loop
    compares: [currentGen] and the [nextGen] computed from it. *)
Definition stability_check : M bool :=
  computeNextGeneration ;; generationsAreIdentical currentGen nextGen ROW.

(** The state the next-generation loops leave. *)
Definition after_next (s : state) : state :=
  match computeNextGeneration s with
  | Some (_, s') => s'
  | None => s
  end.

(** ** Further vocabulary *)


(** [(x, y)] is [(r, c)] or touches it. *)
Definition around (r c x y : Z) : Prop :=
  r - 1 ≤ x ≤ r + 1 ∧ c - 1 ≤ y ≤ c + 1.

(** The cell [(x, y)] of [b] is on the board and holds exactly 1. *)
Definition alive (b : grid) (x y : Z) : Prop := cell_get b x y = Some 1.

(** The accesses of [makeCurrentGenSameAsNextGen] at one cell, when [board2]
    held [b2] at the call: the cell of [board2] is read, its value is written
    to [board1], and 0 is written to [board2]. *)
Definition copy_events (board1 board2 : array) (b2 : grid) (p : Z * Z) : list event :=
  [ CellRead board2 p.1 p.2;
    CellWrite board1 p.1 p.2 (cell b2 p.1 p.2);
    CellWrite board2 p.1 p.2 0 ].

(** What reaches the console: the printed boards, the prompt and the
    still-life message. *)
Definition is_console (e : event) : Prop :=
  match e with
  | Printed _ _ | Prompted | StillLifeMsg => True
  | CellRead _ _ _ | CellWrite _ _ _ _ => False
  end.

Global Instance is_console_dec e : Decision (is_console e).
Proof. destruct e; apply _. Defined.

(** The console part of a trace. *)
Definition console (tr : list event) : list event := filter is_console tr.

(** The message that follows a pass that ended in [r]. *)
Definition still_life_msg (r : option outcome) : list event :=
  match r with Some Stable => [StillLifeMsg] | _ => [] end.

(** [z] is a value of an [int]. *)
Definition is_int (z : Z) : Prop := INT_MIN ≤ z ≤ INT_MAX.

(** What pass number [i] (from 0) of the loop sends to the console, when the
    loop started with the counter at [n] and the board [G]: generation
    [i + 1] after [G] under the number [n + i] as an [int], and the prompt. *)
Definition pass_console (n : Z) (G : grid) (i : nat) : list event :=
  [Printed (int_wrap (n + Z.of_nat i)) (Nat.iter (S i) next_grid G); Prompted].

(** ** [printBoard] *)

(** [endl], as a character of the output. *)
Definition endl : string := String (Ascii.ascii_of_nat 10) EmptyString.

(** What [printBoard] sends to [cout] for the row [i], one string for each
    [<<]: a blank, then for each cell two blanks, the [int] in decimal and
    three blanks, then [endl].  A cell that is not there is a fault. *)
Definition printBoard_row (b : grid) (i : Z) : option (list string) :=
  cells ← mapM (λ j, v ← cell_get b i j; Some ["  "; pretty v; "   "]%string) (seqZ 0 COL);
  Some ([" "%string] ++ concat cells ++ [endl]).

(** What [printBoard (board, msg)] sends to [cout] when the board holds [b]. *)
Definition printBoard_tokens (b : grid) (msg : string) : option (list string) :=
  rows ← mapM (printBoard_row b) (seqZ 0 ROW);
  Some ([msg; endl] ++ concat rows).

(** The characters that reach the console, in order. *)
Definition cout_text (tokens : list string) : string := foldr String.append ""%string tokens.

Definition printBoard_text (b : grid) (msg : string) : option string :=
  cout_text <$> printBoard_tokens b msg.

(** The character for a cell that holds 0 or 1. *)
Definition digit (v : Z) : Ascii.ascii := if v =? 1 then "1"%char else "0"%char.

(** The width of a printed row and the place of the digit of the cell
    [(x, y)] in the text printed under [msg]. *)
Definition row_width : nat := 1 + 6 * Z.to_nat COL + 1.

Definition digit_at (msg : string) (x y : Z) : nat :=
  String.length msg + 1 + row_width * Z.to_nat x + 3 + 6 * Z.to_nat y.

(** The text of a board, row by row and cell by cell. *)
Definition cell_text (v : Z) (rest : string) : string :=
  ("  " +:+ pretty v +:+ "   " +:+ rest)%string.

Definition row_text (row : list Z) (rest : string) : string :=
  (" " +:+ foldr cell_text (endl +:+ rest) row)%string.

Definition board_text (b : grid) (msg : string) : string :=
  (msg +:+ endl +:+ foldr row_text "" b)%string.

(** * Verification *)

(** ** Cells of an array *)

Lemma isSafe_true matrix x y : isSafe matrix x y = true ↔ in_bounds x y.
Proof. unfold isSafe, in_bounds. lia. Qed.

Lemma isSafe_false matrix x y : isSafe matrix x y = false ↔ ¬ in_bounds x y.
Proof.
  split.
  - intros Hf Hin. apply (isSafe_true matrix) in Hin. congruence.
  - intros Hout. destruct (isSafe matrix x y) eqn:Hs; [|done].
    by apply isSafe_true in Hs.
Qed.

Lemma wf_board_row (b : grid) x :
  wf_board b → 0 ≤ x < ROW →
  ∃ row, b !! Z.to_nat x = Some row ∧ length row = Z.to_nat COL.
Proof.
  intros [Hlen Hrows] Hx.
  destruct (lookup_lt_is_Some_2 b (Z.to_nat x)) as [row Hrow]; [lia|].
  exists row. split; [done|]. by eapply (Forall_lookup_1 _ _ _ _ Hrows).
Qed.

Lemma cell_get_in_bounds (b : grid) x y :
  wf_board b → in_bounds x y → is_Some (cell_get b x y).
Proof.
  intros Hwf [Hx Hy]. unfold cell_get.
  destruct (wf_board_row b x Hwf Hx) as (row & Hrow & Hlen).
  replace ((0 <=? x) && (0 <=? y)) with true by lia.
  rewrite Hrow. simpl. apply lookup_lt_is_Some_2. lia.
Qed.

(** Outside the array there is no cell: an access there is a fault. *)
Lemma cell_get_outside (b : grid) x y :
  wf_board b → ¬ in_bounds x y → cell_get b x y = None.
Proof.
  intros [Hlen Hrows] Hout. unfold cell_get, in_bounds in *.
  destruct ((0 <=? x) && (0 <=? y)) eqn:Hnn; [|done].
  destruct (b !! Z.to_nat x) as [row|] eqn:Hrow; [|done]. simpl.
  apply lookup_lt_Some in Hrow as Hx.
  apply (Forall_lookup_1 _ _ _ _ Hrows) in Hrow.
  apply lookup_ge_None. lia.
Qed.

Lemma cell_set_in_bounds (b : grid) x y v :
  wf_board b → in_bounds x y →
  ∃ b', cell_set b x y v = Some b' ∧ wf_board b' ∧
        cell_get b' x y = Some v ∧
        ∀ x' y', (x', y') ≠ (x, y) → cell_get b' x' y' = cell_get b x' y'.
Proof.
  intros Hwf [Hx Hy].
  destruct (wf_board_row b x Hwf Hx) as (row & Hrow & Hlen).
  destruct (lookup_lt_is_Some_2 row (Z.to_nat y)) as [old Hold]; [lia|].
  exists (<[Z.to_nat x := <[Z.to_nat y := v]> row]> b).
  assert (Hnn : (0 <=? x) && (0 <=? y) = true) by lia.
  apply lookup_lt_Some in Hrow as Hxlt.
  split; [|split; [|split]].
  - unfold cell_set. rewrite Hnn, Hrow. simpl. by rewrite Hold.
  - destruct Hwf as [Hl Hrows]. split; [by rewrite length_insert|].
    apply Forall_insert; [done|]. cbv beta. by rewrite length_insert.
  - unfold cell_get. rewrite Hnn, list_lookup_insert_eq by done. simpl.
    apply list_lookup_insert_eq. lia.
  - intros x' y' Hne. unfold cell_get.
    destruct ((0 <=? x') && (0 <=? y')) eqn:Hnn'; [|done].
    destruct (decide (Z.to_nat x' = Z.to_nat x)) as [Hxx|Hxx].
    + rewrite Hxx, list_lookup_insert_eq, Hrow by done. simpl.
      apply list_lookup_insert_ne. intros Hyy.
      apply Hne. f_equal; lia.
    + by rewrite list_lookup_insert_ne.
Qed.

(** Two arrays with the same cells are the same array. *)
Lemma board_ext (b1 b2 : grid) :
  wf_board b1 → wf_board b2 →
  (∀ x y, in_bounds x y → cell_get b1 x y = cell_get b2 x y) →
  b1 = b2.
Proof.
  intros Hwf1 Hwf2 Hcells.
  apply list_eq_same_length with (Z.to_nat ROW); [apply Hwf2|apply Hwf1|].
  intros i row1 row2 Hi Hr1 Hr2.
  assert (Hl1 := Forall_lookup_1 _ _ _ _ (proj2 Hwf1) Hr1).
  assert (Hl2 := Forall_lookup_1 _ _ _ _ (proj2 Hwf2) Hr2).
  simpl in Hl1, Hl2.
  apply list_eq_same_length with (Z.to_nat COL); [done..|].
  intros j v1 v2 Hj Hv1 Hv2.
  specialize (Hcells (Z.of_nat i) (Z.of_nat j)).
  unfold cell_get, in_bounds in Hcells.
  replace ((0 <=? Z.of_nat i) && (0 <=? Z.of_nat j)) with true in Hcells by lia.
  rewrite !Nat2Z.id, Hr1, Hr2 in Hcells. simpl in Hcells.
  rewrite Hv1, Hv2 in Hcells. injection Hcells; [done|lia].
Qed.

(** ** States *)

Lemma logs_nil s : logs [] s = s.
Proof. destruct s. unfold logs. simpl. by rewrite app_nil_r. Qed.

Lemma logs_logs es1 es2 s : logs es2 (logs es1 s) = logs (es1 ++ es2) s.
Proof. unfold logs. simpl. by rewrite app_assoc. Qed.

Lemma logs_log es e s : log e (logs es s) = logs (es ++ [e]) s.
Proof. apply logs_logs. Qed.

Lemma sel_logs es s a : sel (logs es s) a = sel s a.
Proof. by destruct a. Qed.

Lemma sel_log e s a : sel (log e s) a = sel s a.
Proof. by destruct a. Qed.

Lemma sel_upd_eq s a b : sel (upd s a b) a = b.
Proof. by destruct a. Qed.

Lemma sel_upd_ne s a a' b : a ≠ a' → sel (upd s a b) a' = sel s a'.
Proof. by destruct a, a'. Qed.

Lemma trace_upd s a b : trace (upd s a b) = trace s.
Proof. by destruct a. Qed.

Lemma same_io_refl s : same_io s s.
Proof. by repeat split. Qed.

Lemma same_io_trans s1 s2 s3 : same_io s1 s2 → same_io s2 s3 → same_io s1 s3.
Proof. unfold same_io. intros (? & ? & ? & ?) (? & ? & ? & ?). repeat split; congruence. Qed.

Lemma same_io_logs es s : same_io s (logs es s).
Proof. by repeat split. Qed.

Lemma same_io_upd s a b : same_io s (upd s a b).
Proof. by destruct a. Qed.

Lemma extends_refl P s : extends P s s.
Proof. exists []. by rewrite app_nil_r. Qed.

Lemma extends_trans P s1 s2 s3 : extends P s1 s2 → extends P s2 s3 → extends P s1 s3.
Proof.
  intros (n1 & E1 & F1) (n2 & E2 & F2). exists (n1 ++ n2).
  split; [by rewrite E2, E1, app_assoc|by apply Forall_app].
Qed.

Lemma extends_logs (P : event → Prop) es s : Forall P es → extends P s (logs es s).
Proof. intros HP. by exists es. Qed.

Lemma extends_upd P s a b : extends P s (upd s a b).
Proof. exists []. by rewrite trace_upd, app_nil_r. Qed.

(** ** The primitives *)

Lemma bind_run {A B} (m : M A) (k : A → M B) s a s' :
  m s = Some (a, s') → bind m k s = k a s'.
Proof. intros E. unfold bind. by rewrite E. Qed.

Lemma load_in_bounds a x y s :
  wf_board (sel s a) → in_bounds x y →
  ∃ v, cell_get (sel s a) x y = Some v ∧
       load a x y s = Some (v, log (CellRead a x y) s).
Proof.
  intros Hwf Hin. destruct (cell_get_in_bounds _ _ _ Hwf Hin) as [v Hv].
  exists v. split; [done|]. unfold load. by rewrite Hv.
Qed.

(** A read outside the array is a fault. *)
Lemma load_outside a x y s :
  wf_board (sel s a) → ¬ in_bounds x y → load a x y s = None.
Proof. intros Hwf Hout. unfold load. by rewrite cell_get_outside. Qed.

Lemma store_in_bounds a x y v s :
  wf_board (sel s a) → in_bounds x y →
  ∃ b, store a x y v s = Some (tt, log (CellWrite a x y v) (upd s a b)) ∧
       wf_board b ∧ cell_get b x y = Some v ∧
       ∀ x' y', (x', y') ≠ (x, y) → cell_get b x' y' = cell_get (sel s a) x' y'.
Proof.
  intros Hwf Hin.
  destruct (cell_set_in_bounds _ _ _ v Hwf Hin) as (b & Hset & Hb).
  exists b. split; [|done]. unfold store. by rewrite Hset.
Qed.

(** ** Loops *)

Section loops.
Context {A : Type}.

Lemma for_fold_from_inv (I : Z → A → state → Prop) body n : ∀ i a s,
  I i a s →
  (∀ k a s, i ≤ k < i + Z.of_nat n → I k a s →
     ∃ a' s', body k a s = Some (a', s') ∧ I (k + 1) a' s') →
  ∃ a' s', for_fold_from n i body a s = Some (a', s') ∧ I (i + Z.of_nat n) a' s'.
Proof.
  induction n as [|n IH]; intros i a s Hi Hbody.
  - exists a, s. split; [done|]. by replace (i + Z.of_nat 0) with i by lia.
  - destruct (Hbody i a s) as (a1 & s1 & E1 & H1); [lia|done|].
    destruct (IH (i + 1) a1 s1 H1) as (a2 & s2 & E2 & H2).
    { intros k a' s' Hk. apply Hbody. lia. }
    exists a2, s2. split.
    + simpl. unfold bind. by rewrite E1.
    + by replace (i + Z.of_nat (S n)) with (i + 1 + Z.of_nat n) by lia.
Qed.

Lemma for_fold_inv (I : Z → A → state → Prop) lo hi body a s :
  lo ≤ hi →
  I lo a s →
  (∀ k a s, lo ≤ k < hi → I k a s →
     ∃ a' s', body k a s = Some (a', s') ∧ I (k + 1) a' s') →
  ∃ a' s', for_fold lo hi body a s = Some (a', s') ∧ I hi a' s'.
Proof.
  intros Hle Hi Hbody. unfold for_fold.
  destruct (for_fold_from_inv I body (Z.to_nat (hi - lo)) lo a s Hi)
    as (a' & s' & E & H).
  { intros k a' s' Hk. apply Hbody. lia. }
  exists a', s'. split; [done|].
  by replace hi with (lo + Z.of_nat (Z.to_nat (hi - lo))) by lia.
Qed.

Lemma for_ret_from_inv (I : Z → state → Prop) (Q : A → state → Prop) body n :
  ∀ i s,
  I i s →
  (∀ k s, i ≤ k < i + Z.of_nat n → I k s →
     ∃ r s', body k s = Some (r, s') ∧
             match r with Some v => Q v s' | None => I (k + 1) s' end) →
  ∃ r s', for_ret_from n i body s = Some (r, s') ∧
          match r with Some v => Q v s' | None => I (i + Z.of_nat n) s' end.
Proof.
  induction n as [|n IH]; intros i s Hi Hbody.
  - exists None, s. split; [done|]. by replace (i + Z.of_nat 0) with i by lia.
  - destruct (Hbody i s) as (r1 & s1 & E1 & H1); [lia|done|].
    destruct r1 as [v|].
    + exists (Some v), s1. split; [|done]. simpl. unfold bind. by rewrite E1.
    + destruct (IH (i + 1) s1 H1) as (r2 & s2 & E2 & H2).
      { intros k s' Hk. apply Hbody. lia. }
      exists r2, s2. split.
      * simpl. unfold bind. by rewrite E1.
      * destruct r2; [done|].
        by replace (i + Z.of_nat (S n)) with (i + 1 + Z.of_nat n) by lia.
Qed.

Lemma for_ret_inv (I : Z → state → Prop) (Q : A → state → Prop) lo hi body s :
  lo ≤ hi →
  I lo s →
  (∀ k s, lo ≤ k < hi → I k s →
     ∃ r s', body k s = Some (r, s') ∧
             match r with Some v => Q v s' | None => I (k + 1) s' end) →
  ∃ r s', for_ret lo hi body s = Some (r, s') ∧
          match r with Some v => Q v s' | None => I hi s' end.
Proof.
  intros Hle Hi Hbody. unfold for_ret.
  destruct (for_ret_from_inv I Q body (Z.to_nat (hi - lo)) lo s Hi)
    as (r & s' & E & H).
  { intros k s' Hk. apply Hbody. lia. }
  exists r, s'. split; [done|]. destruct r; [done|].
  by replace hi with (lo + Z.of_nat (Z.to_nat (hi - lo))) by lia.
Qed.
End loops.

Lemma for_inv (I : Z → state → Prop) lo hi body s :
  lo ≤ hi →
  I lo s →
  (∀ k s, lo ≤ k < hi → I k s → ∃ s', body k s = Some (tt, s') ∧ I (k + 1) s') →
  ∃ s', for_ lo hi body s = Some (tt, s') ∧ I hi s'.
Proof.
  intros Hle Hi Hbody.
  destruct (for_fold_inv (λ k _ s, I k s) lo hi (λ i _, body i) tt s Hle Hi)
    as ([] & s' & E & H).
  { intros k _ s1 Hk H1. destruct (Hbody k s1 Hk H1) as (s2 & E2 & H2).
    by exists tt, s2. }
  by exists s'.
Qed.

(** The two nested loops over the cells of an array, in row-major order: the
    invariant [I i j] holds when the walk stands before the cell [(i, j)]. *)
Lemma for_cells_inv (I : Z → Z → state → Prop) body s :
  I 0 0 s →
  (∀ i j s, in_bounds i j → I i j s →
     ∃ s', body i j s = Some (tt, s') ∧ I i (j + 1) s') →
  (∀ i s, 0 ≤ i < ROW → I i COL s → I (i + 1) 0 s) →
  ∃ s', for_ 0 ROW (λ i, for_ 0 COL (λ j, body i j)) s = Some (tt, s') ∧ I ROW 0 s'.
Proof.
  intros H0 Hbody Hrow.
  apply (for_inv (λ i s, I i 0 s)); [done..|].
  intros i s1 Hi H1.
  destruct (for_inv (λ j s, I i j s) 0 COL (λ j, body i j) s1) as (s2 & E2 & H2);
    [done..| |].
  { intros j s' Hj Hs'. by apply Hbody. }
  exists s2. split; [done|]. by apply Hrow.
Qed.

(** ** [countNeighbors] *)

Lemma seqZ_snoc k : 0 ≤ k → seqZ 0 (k + 1) = seqZ 0 k ++ [k].
Proof. intros Hk. by rewrite seqZ_app by lia. Qed.

Lemma neighbors_upto_snoc r c k :
  0 ≤ k → neighbors_upto r c (k + 1) = neighbors_upto r c k ++ [neighbor r c k].
Proof. intros Hk. unfold neighbors_upto. by rewrite seqZ_snoc, fmap_app. Qed.

Lemma filter_snoc {A} (P : A → Prop) `{∀ x, Decision (P x)} (l : list A) x :
  filter P (l ++ [x]) = filter P l ++ (if decide (P x) then [x] else []).
Proof.
  by rewrite filter_app.
Qed.

(** The run of [countNeighbors]: its result, and the state it leaves. *)
Lemma countNeighbors_run a r c s :
  wf_board (sel s a) →
  countNeighbors a r c s =
    Some (Z.of_nat (length (filter (live_at (sel s a)) (neighbors_upto r c 8))),
          logs (read_of a <$> filter inside (neighbors_upto r c 8)) s).
Proof.
  intros Hwf. unfold countNeighbors.
  set (body := λ (i counter : Z), _).
  destruct (for_fold_inv
    (λ k counter s',
       counter = Z.of_nat (length (filter (live_at (sel s a)) (neighbors_upto r c k))) ∧
       s' = logs (read_of a <$> filter inside (neighbors_upto r c k)) s)
    0 8 body 0 s) as (n & s' & E & Hn & Hs'); [lia| | |].
  - split; [done|]. by rewrite logs_nil.
  - intros k counter s1 Hk [-> ->].
    rewrite neighbors_upto_snoc, !filter_snoc by lia.
    unfold body. fold (neighbor r c k). destruct (neighbor r c k) as [x y] eqn:Hp.
    injection Hp as Hx Hy. rewrite Hx, Hy.
    destruct (isSafe a x y) eqn:Hsafe.
    + apply isSafe_true in Hsafe.
      destruct (load_in_bounds a x y (logs (read_of a <$>
        filter inside (neighbors_upto r c k)) s)) as (v & Hv & Hload);
        [by rewrite sel_logs|done|].
      rewrite sel_logs in Hv. unfold bind. rewrite Hload.
      eexists _, _. split; [done|]. split.
      * destruct (Z.eqb_spec v 1) as [->|Hv1].
        -- rewrite decide_True by done. rewrite length_app. simpl. lia.
        -- rewrite decide_False; [by rewrite app_nil_r|].
           intros [_ Hlive]. simpl in Hlive. congruence.
      * rewrite decide_True by done. by rewrite fmap_app, logs_log.
    + apply isSafe_false in Hsafe.
      eexists _, _. split; [done|].
      rewrite !decide_False by (unfold live_at, inside; simpl; tauto).
      by rewrite !app_nil_r.
  - by rewrite E, Hn, Hs'.
Qed.

(** The loop goes through the offsets of the specification, in the order of
    the tables. *)
Lemma neighbors_upto_8 r c : neighbors_upto r c 8 ≡ₚ neighbors r c.
Proof.
  change (neighbors_upto r c 8) with
    (shift r c <$> [ (-1, -1); (-1, 1); (-1, 0); (0, -1); (1, -1); (0, 1); (1, 0); (1, 1) ]).
  unfold neighbors, neighbor_offsets. apply fmap_Permutation.
  apply perm_skip. etrans; [apply perm_swap|]. do 3 apply perm_skip.
  apply perm_swap.
Qed.

Lemma live_neighbors_range b r c : 0 ≤ live_neighbors b r c ≤ 8.
Proof.
  unfold live_neighbors.
  pose proof (length_filter (live_at b) (neighbors r c)) as Hle.
  change (length (neighbors r c)) with 8%nat in Hle. lia.
Qed.

Lemma live_neighbors_upto_8 b r c :
  Z.of_nat (length (filter (live_at b) (neighbors_upto r c 8))) = live_neighbors b r c.
Proof.
  unfold live_neighbors. f_equal. apply Permutation_length.
  by rewrite neighbors_upto_8.
Qed.

Lemma countNeighbors_live_neighbors a r c s :
  wf_board (sel s a) →
  ∃ s', countNeighbors a r c s = Some (live_neighbors (sel s a) r c, s') ∧
        s' = logs (read_of a <$> filter inside (neighbors_upto r c 8)) s.
Proof.
  intros Hwf. rewrite countNeighbors_run by done. eexists. split; [|done].
  by rewrite live_neighbors_upto_8.
Qed.

(** ** The next generation *)

Lemma cell_step_trans i j s1 s2 s3 :
  cell_step i j s1 s2 → cell_step i j s2 s3 → cell_step i j s1 s3.
Proof.
  intros (C1 & W1 & O1 & I1 & X1) (C2 & W2 & O2 & I2 & X2).
  repeat split.
  - congruence.
  - apply W2.
  - apply W2.
  - intros x y Hne. rewrite O2, O1; done.
  - destruct I1, I2. congruence.
  - destruct I1 as (_ & ? & _), I2 as (_ & ? & _). congruence.
  - destruct I1 as (_ & _ & ? & _), I2 as (_ & _ & ? & _). congruence.
  - destruct I1 as (_ & _ & _ & ?), I2 as (_ & _ & _ & ?). congruence.
  - by eapply extends_trans.
Qed.

Lemma cell_step_reads i j es s :
  wf_board (sel s nextGen) → Forall next_event es → cell_step i j s (logs es s).
Proof.
  intros Hwf Hes. repeat split; try done; try apply Hwf.
  by apply extends_logs.
Qed.

Lemma store_next_step i j v s :
  wf_board (sel s nextGen) → in_bounds i j → v = 0 ∨ v = 1 →
  ∃ s', store nextGen i j v s = Some (tt, s') ∧ cell_step i j s s' ∧
        cell_get (sel s' nextGen) i j = Some v.
Proof.
  intros Hwf Hin Hv.
  destruct (store_in_bounds nextGen i j v s Hwf Hin) as (b & E & Wb & Vb & Ob).
  eexists. split; [exact E|]. split; [|done].
  repeat split; try done; try apply Wb.
  exists [CellWrite nextGen i j v]. split; [done|].
  by apply Forall_singleton.
Qed.

Lemma when_store_next_step (c : bool) i j v v0 s :
  wf_board (sel s nextGen) → in_bounds i j → v = 0 ∨ v = 1 →
  cell_get (sel s nextGen) i j = Some v0 →
  ∃ s', when c (store nextGen i j v) s = Some (tt, s') ∧ cell_step i j s s' ∧
        cell_get (sel s' nextGen) i j = Some (if c then v else v0).
Proof.
  intros Hwf Hin Hv Hv0. destruct c; simpl.
  - by apply store_next_step.
  - exists s. split; [done|]. split; [|done].
    rewrite <- (logs_nil s) at 2. by apply cell_step_reads.
Qed.

Lemma Forall_next_event_reads (ps : list (Z * Z)) :
  Forall next_event (read_of currentGen <$> filter inside ps).
Proof.
  apply Forall_fmap, Forall_forall. intros p Hp.
  apply list_elem_of_filter in Hp as [Hp _]. by split.
Qed.

(** One cell of the next generation. *)
Lemma nextCell_run i j s :
  wf_board (sel s currentGen) → wf_board (sel s nextGen) → in_bounds i j →
  ∃ s', nextCell i j s = Some (tt, s') ∧ cell_step i j s s' ∧
        cell_get (sel s' nextGen) i j =
          Some (next_state (cell (sel s currentGen) i j)
                           (live_neighbors (sel s currentGen) i j)).
Proof.
  intros Hcur Hnxt Hin.
  destruct (store_next_step i j 0 s Hnxt Hin) as (s1 & E1 & S1 & V1); [by left|].
  destruct S1 as (C1 & W1 & S1).
  destruct (countNeighbors_live_neighbors currentGen i j s1)
    as (s2 & E2 & Hs2); [by rewrite C1|].
  rewrite C1 in E2.
  destruct (load_in_bounds currentGen i j s2) as (v & Hv & E3);
    [by rewrite Hs2, sel_logs, C1|done|].
  rewrite Hs2, sel_logs, C1 in Hv.
  set (n := live_neighbors (sel s currentGen) i j) in *.
  assert (S13 : cell_step i j s (log (CellRead currentGen i j) s2)).
  { apply cell_step_trans with s1; [done|].
    subst s2. rewrite logs_log. apply cell_step_reads; [done|].
    apply Forall_app. split; [apply Forall_next_event_reads|].
    by apply Forall_singleton. }
  assert (V3 : cell_get (sel (log (CellRead currentGen i j) s2) nextGen) i j = Some 0).
  { by rewrite sel_log, Hs2, sel_logs. }
  assert (W3 := proj1 (proj2 S13)).
  unfold nextCell, bind. rewrite E1, E2, E3.
  unfold cell. rewrite Hv. simpl. unfold next_state.
  destruct (v =? 1).
  - destruct (when_store_next_step (n <? 2) i j 0 0 _ W3 Hin) as (s4 & E4 & S4 & V4);
      [by left|done|].
    destruct (when_store_next_step ((n =? 2) || (n =? 3)) i j 1
                (if n <? 2 then 0 else 0) s4) as (s5 & E5 & S5 & V5);
      [apply S4|done|by right|done|].
    destruct (when_store_next_step (3 <? n) i j 0
                (if (n =? 2) || (n =? 3) then 1 else if n <? 2 then 0 else 0) s5)
      as (s6 & E6 & S6 & V6); [apply S5|done|by left|done|].
    exists s6. rewrite E4, E5, E6. split; [done|]. split; [|done].
    eauto using cell_step_trans.
  - destruct (when_store_next_step (n =? 3) i j 1 0 _ W3 Hin) as (s4 & E4 & S4 & V4);
      [by right|done|].
    exists s4. split; [done|]. split; [|done].
    eauto using cell_step_trans.
Qed.

Lemma before_next i j x y :
  before i (j + 1) x y ↔ before i j x y ∨ (x, y) = (i, j).
Proof.
  unfold before. split.
  - intros [?|[-> ?]]; [by left; left|].
    destruct (decide (y = j)) as [->|]; [by right|left; right; lia].
  - intros [[?|[-> ?]]|[= -> ->]]; [by left|right; lia|right; lia].
Qed.

Lemma before_row i x y : in_bounds x y → before (i + 1) 0 x y → before i COL x y.
Proof. unfold before, in_bounds. lia. Qed.

Lemma before_end x y : in_bounds x y → before ROW 0 x y.
Proof. unfold before, in_bounds. lia. Qed.

Lemma before_start x y : in_bounds x y → ¬ before 0 0 x y.
Proof. unfold before, in_bounds. lia. Qed.

Lemma computeNextGeneration_cells s :
  wf_board (sel s currentGen) → wf_board (sel s nextGen) →
  ∃ s', computeNextGeneration s = Some (tt, s') ∧
        sel s' currentGen = sel s currentGen ∧
        wf_board (sel s' nextGen) ∧
        same_io s s' ∧
        extends next_event s s' ∧
        ∀ x y, in_bounds x y →
          cell_get (sel s' nextGen) x y = Some (next_value (sel s currentGen) x y).
Proof.
  intros Hcur Hnxt.
  destruct (for_cells_inv
    (λ i j s',
       sel s' currentGen = sel s currentGen ∧
       wf_board (sel s' nextGen) ∧
       same_io s s' ∧
       extends next_event s s' ∧
       ∀ x y, in_bounds x y → before i j x y →
         cell_get (sel s' nextGen) x y = Some (next_value (sel s currentGen) x y))
    nextCell s) as (s' & E & C & W & IO & X & V).
  - split; [done|]. split; [done|]. split; [apply same_io_refl|].
    split; [apply extends_refl|]. intros x y Hin Hb. by apply before_start in Hb.
  - intros i j s1 Hin (C1 & W1 & IO1 & X1 & V1).
    destruct (nextCell_run i j s1) as (s2 & E2 & (C2 & W2 & O2 & IO2 & X2) & V2);
      [by rewrite C1|done..|].
    exists s2. split; [done|]. split; [congruence|]. split; [done|].
    split; [by eapply same_io_trans|]. split; [by eapply extends_trans|].
    intros x y Hxy Hb. apply before_next in Hb as [Hb|[= -> ->]].
    + rewrite O2; [by apply V1|].
      intros [= -> ->]. unfold before in Hb. lia.
    + by rewrite V2, C1.
  - intros i s1 Hi (C1 & W1 & IO1 & X1 & V1). repeat (split; [done|]).
    intros x y Hxy Hb. apply V1; [done|]. by apply before_row.
  - exists s'. repeat (split; [done|]).
    intros x y Hxy. apply V; [done|]. by apply before_end.
Qed.

Lemma next_grid_wf b : wf_board (next_grid b).
Proof.
  split.
  - unfold next_grid. by rewrite length_fmap, length_seqZ.
  - apply Forall_fmap, Forall_forall. intros x _. unfold compose.
    by rewrite length_fmap, length_seqZ.
Qed.

Lemma next_grid_cell b x y :
  in_bounds x y → cell_get (next_grid b) x y = Some (next_value b x y).
Proof.
  intros [Hx Hy]. unfold cell_get, next_grid.
  replace ((0 <=? x) && (0 <=? y)) with true by lia.
  rewrite list_lookup_fmap, (lookup_seqZ_lt 0 ROW) by lia.
  cbn [fmap option_fmap option_map mbind option_bind].
  rewrite list_lookup_fmap, (lookup_seqZ_lt 0 COL) by lia.
  cbn [fmap option_fmap option_map].
  do 2 f_equal; lia.
Qed.

(** The next-generation loops fill [nextGen] with the generation after
    [currentGen], whatever [nextGen] held. *)
Lemma computeNextGeneration_run s :
  wf_board (sel s currentGen) → wf_board (sel s nextGen) →
  ∃ s', computeNextGeneration s = Some (tt, s') ∧
        sel s' currentGen = sel s currentGen ∧
        sel s' nextGen = next_grid (sel s currentGen) ∧
        same_io s s' ∧
        extends next_event s s'.
Proof.
  intros Hcur Hnxt.
  destruct (computeNextGeneration_cells s Hcur Hnxt) as (s' & E & C & W & IO & X & V).
  exists s'. repeat (split; [done|]). split; [|done].
  apply board_ext; [done|apply next_grid_wf|].
  intros x y Hxy. by rewrite V, next_grid_cell.
Qed.

(** ** [generationsAreIdentical] *)

Lemma cells_before_next i j :
  0 ≤ j → cells_before i (j + 1) = cells_before i j ++ [(i, j)].
Proof.
  intros Hj. unfold cells_before. by rewrite seqZ_snoc, fmap_app, app_assoc.
Qed.

Lemma cells_before_row i : 0 ≤ i → cells_before i COL = cells_before (i + 1) 0.
Proof.
  intros Hi. unfold cells_before.
  by rewrite seqZ_snoc, bind_app, bind_singleton, app_nil_r.
Qed.

Lemma elem_of_cells_before i j x y :
  0 ≤ i → 0 ≤ j ≤ COL →
  (x, y) ∈ cells_before i j ↔ 0 ≤ x ∧ 0 ≤ y ∧ (x < i ∧ y < COL ∨ x = i ∧ y < j).
Proof.
  intros Hi Hj. unfold cells_before.
  rewrite elem_of_app, list_elem_of_bind, list_elem_of_fmap.
  split.
  - intros [(x' & Hy & Hx)|(y' & [= -> ->] & Hy)].
    + apply list_elem_of_fmap in Hy as (y' & [= -> ->] & Hy).
      apply elem_of_seqZ in Hx, Hy. lia.
    + apply elem_of_seqZ in Hy. lia.
  - intros (Hx & Hy & [[Hxi Hyc]|[-> Hyj]]).
    + left. exists x. split; [|apply elem_of_seqZ; lia].
      apply list_elem_of_fmap. exists y. split; [done|]. apply elem_of_seqZ. lia.
    + right. exists y. split; [done|]. apply elem_of_seqZ. lia.
Qed.

Lemma generationsAreIdentical_run board1 board2 s :
  wf_board (sel s board1) → wf_board (sel s board2) →
  ∃ (res : bool) s',
    generationsAreIdentical board1 board2 ROW s = Some (res, s') ∧
    if res then
      agree_before (sel s board1) (sel s board2) ROW 0 ∧
      compared board1 board2 (cells_before ROW 0) s s'
    else
      ∃ i j, first_mismatch (sel s board1) (sel s board2) i j ∧
             compared board1 board2 (cells_before i j ++ [(i, j)]) s s'.
Proof.
  intros Hwf1 Hwf2.
  set (b1 := sel s board1) in *. set (b2 := sel s board2) in *.
  set (Inv := λ i j s', agree_before b1 b2 i j ∧
                        compared board1 board2 (cells_before i j) s s').
  set (Ret := λ (v : bool) s',
         v = false ∧
         ∃ i j, first_mismatch b1 b2 i j ∧
                compared board1 board2 (cells_before i j ++ [(i, j)]) s s').
  destruct (for_ret_inv (λ i s', Inv i 0 s') Ret 0 ROW
    (λ i, for_ret 0 COL (λ j,
       v1 <- load board1 i j ;;
       v2 <- load board2 i j ;;
       if negb (v1 =? v2) then ret (Some false) else ret None)) s)
    as (r & s' & E & Hr); [done| | |].
  - split.
    + intros x y Hxy Hb. by apply before_start in Hb.
    + unfold compared. by rewrite logs_nil.
  - intros i s1 Hi H1.
    destruct (for_ret_inv (λ j s', Inv i j s') Ret 0 COL
      (λ j, v1 <- load board1 i j ;;
            v2 <- load board2 i j ;;
            if negb (v1 =? v2) then ret (Some false) else ret None) s1)
      as (r & s2 & E2 & Hr2); [done..| |].
    + intros j s2 Hj [Hagree Hs2].
      assert (Hin : in_bounds i j) by done.
      destruct (load_in_bounds board1 i j s2) as (v1 & Hv1 & E1);
        [by rewrite Hs2, sel_logs|done|].
      destruct (load_in_bounds board2 i j (log (CellRead board1 i j) s2))
        as (v2 & Hv2 & E2); [by rewrite sel_log, Hs2, sel_logs|done|].
      rewrite Hs2, sel_logs in Hv1. rewrite sel_log, Hs2, sel_logs in Hv2.
      fold b1 in Hv1. fold b2 in Hv2.
      unfold bind. rewrite E1, E2.
      assert (Hlog : compared board1 board2 (cells_before i j ++ [(i, j)]) s
                (log (CellRead board2 i j) (log (CellRead board1 i j) s2))).
      { unfold compared. rewrite Hs2, !logs_log, bind_app, bind_singleton.
        by rewrite <- app_assoc. }
      destruct (Z.eqb_spec v1 v2) as [->|Hne]; simpl.
      * eexists None, _. split; [done|]. split.
        -- intros x y Hxy Hb. apply before_next in Hb as [Hb|[= -> ->]].
           ++ by apply Hagree.
           ++ by rewrite Hv1, Hv2.
        -- by rewrite cells_before_next by lia.
      * eexists (Some false), _. split; [done|]. split; [done|].
        exists i, j. split; [|done]. split; [done|]. split; [|done].
        rewrite Hv1, Hv2. congruence.
    + exists r, s2. split; [done|]. destruct r; [done|].
      destruct Hr2 as [Hagree Hs2]. split.
      * intros x y Hxy Hb. apply Hagree; [done|]. by apply before_row.
      * by rewrite <- cells_before_row by lia.
  - unfold generationsAreIdentical. rewrite (bind_run _ _ _ _ _ E).
    destruct r as [v|].
    + destruct Hr as [-> Hr]. by exists false, s'.
    + by exists true, s'.
Qed.

(** ** [makeCurrentGenSameAsNextGen] *)

Lemma makeCurrentGenSameAsNextGen_cells board1 board2 s :
  board1 ≠ board2 →
  wf_board (sel s board1) → wf_board (sel s board2) →
  ∃ s', makeCurrentGenSameAsNextGen board1 board2 ROW s = Some (tt, s') ∧
        wf_board (sel s' board1) ∧ wf_board (sel s' board2) ∧
        same_io s s' ∧
        ∀ x y, in_bounds x y →
          cell_get (sel s' board1) x y = cell_get (sel s board2) x y ∧
          cell_get (sel s' board2) x y = Some 0.
Proof.
  intros Hne Hwf1 Hwf2.
  destruct (for_cells_inv
    (λ i j s',
       wf_board (sel s' board1) ∧ wf_board (sel s' board2) ∧ same_io s s' ∧
       ∀ x y, in_bounds x y →
         (before i j x y →
            cell_get (sel s' board1) x y = cell_get (sel s board2) x y ∧
            cell_get (sel s' board2) x y = Some 0) ∧
         (¬ before i j x y →
            cell_get (sel s' board1) x y = cell_get (sel s board1) x y ∧
            cell_get (sel s' board2) x y = cell_get (sel s board2) x y))
    (λ i j, v <- load board2 i j ;; store board1 i j v ;; store board2 i j 0) s)
    as (s' & E & W1 & W2 & IO & Hcells).
  - split; [done|]. split; [done|]. split; [apply same_io_refl|].
    intros x y Hxy. split; [|done]. intros Hb. by apply before_start in Hb.
  - intros i j s1 Hin (W1 & W2 & IO & Hcells).
    destruct (load_in_bounds board2 i j s1 W2 Hin) as (v & Hv & E1).
    assert (Hv' : cell_get (sel s board2) i j = Some v).
    { rewrite <- Hv. symmetry. apply (Hcells i j Hin). unfold before. lia. }
    destruct (store_in_bounds board1 i j v (log (CellRead board2 i j) s1))
      as (b1 & E2 & Wb1 & Vb1 & Ob1); [by rewrite sel_log|done|].
    rewrite sel_log in Ob1.
    destruct (store_in_bounds board2 i j 0
      (log (CellWrite board1 i j v) (upd (log (CellRead board2 i j) s1) board1 b1)))
      as (b2 & E3 & Wb2 & Vb2 & Ob2);
      [by rewrite sel_log, sel_upd_ne, sel_log|done|].
    rewrite sel_log, sel_upd_ne, sel_log in Ob2 by done.
    rewrite (bind_run _ _ _ _ _ E1), (bind_run _ _ _ _ _ E2), E3.
    eexists. split; [done|].
    set (s3 := log _ (upd _ board2 b2)).
    assert (S2 : sel s3 board2 = b2) by (by subst s3; rewrite sel_log, sel_upd_eq).
    assert (S1 : sel s3 board1 = b1).
    { subst s3. by rewrite sel_log, sel_upd_ne, sel_log, sel_upd_eq. }
    rewrite S1, S2. split; [done|]. split; [done|]. split.
    { eapply same_io_trans; [exact IO|]. by destruct board1, board2. }
    intros x y Hxy. destruct (Hcells x y Hxy) as [Hold Hnew].
    destruct (decide ((x, y) = (i, j))) as [[= -> ->]|Hxy'].
    + split.
      * intros _. rewrite Vb1, Vb2. split; [|done].
        (* the cell is copied before it is cleared *)
        by rewrite Hv'.
      * intros Hnb. exfalso. apply Hnb. apply before_next. by right.
    + rewrite Ob1, Ob2 by done. split.
      * intros Hb. apply before_next in Hb as [Hb|Hb]; [by apply Hold|done].
      * intros Hnb. apply Hnew. intros Hb. apply Hnb, before_next. by left.
  - intros i s1 Hi (W1 & W2 & IO & Hcells). repeat (split; [done|]).
    intros x y Hxy. destruct (Hcells x y Hxy) as [Hold Hnew]. split.
    + intros Hb. by apply Hold, before_row.
    + intros Hnb. apply Hnew. unfold before, in_bounds in *. lia.
  - exists s'. repeat (split; [done|]).
    intros x y Hxy. by apply Hcells, before_end.
Qed.

Lemma dead_grid_wf : wf_board dead_grid.
Proof. split; [done|]. by repeat constructor. Qed.

Lemma dead_grid_cell x y : in_bounds x y → cell_get dead_grid x y = Some 0.
Proof.
  intros [Hx Hy]. unfold cell_get, dead_grid.
  replace ((0 <=? x) && (0 <=? y)) with true by lia.
  rewrite lookup_replicate_2 by lia. cbn [mbind option_bind].
  apply lookup_replicate_2. lia.
Qed.

Lemma makeCurrentGenSameAsNextGen_run board1 board2 s :
  board1 ≠ board2 →
  wf_board (sel s board1) → wf_board (sel s board2) →
  ∃ s', makeCurrentGenSameAsNextGen board1 board2 ROW s = Some (tt, s') ∧
        sel s' board1 = sel s board2 ∧
        sel s' board2 = dead_grid ∧
        same_io s s'.
Proof.
  intros Hne Hwf1 Hwf2.
  destruct (makeCurrentGenSameAsNextGen_cells board1 board2 s Hne Hwf1 Hwf2)
    as (s' & E & W1 & W2 & IO & Hcells).
  exists s'. split; [done|]. split; [|split; [|done]].
  - apply board_ext; [done..|]. intros x y Hxy. by apply Hcells.
  - apply board_ext; [done|apply dead_grid_wf|]. intros x y Hxy.
    rewrite dead_grid_cell by done. by apply Hcells.
Qed.

(** ** The first generation *)

Lemma rem_2_binary (v : N) : Z.rem (Z.of_N v) 2 = 0 ∨ Z.rem (Z.of_N v) 2 = 1.
Proof.
  pose proof (Z.rem_bound_pos (Z.of_N v) 2 ltac:(lia) ltac:(lia)). lia.
Qed.

Lemma randomSeed_run s :
  wf_board (sel s currentGen) →
  ∃ s', randomSeed s = Some (tt, s') ∧
        wf_board (sel s' currentGen) ∧
        binary (sel s' currentGen) ∧
        sel s' nextGen = sel s nextGen ∧
        generationCounter s' = generationCounter s ∧
        stdin s' = stdin s ∧
        extends seed_event s s'.
Proof.
  intros Hwf.
  destruct (for_cells_inv
    (λ i j s',
       wf_board (sel s' currentGen) ∧
       sel s' nextGen = sel s nextGen ∧
       generationCounter s' = generationCounter s ∧
       stdin s' = stdin s ∧
       extends seed_event s s' ∧
       ∀ x y v, in_bounds x y → before i j x y →
         cell_get (sel s' currentGen) x y = Some v → v = 0 ∨ v = 1)
    (λ i j, v <- rand ;; store currentGen i j (Z.rem v 2)) s)
    as (s' & E & W & N & G & I & X & B).
  - repeat (split; [done|]). split; [apply extends_refl|].
    intros x y v Hxy Hb. by apply before_start in Hb.
  - intros i j s1 Hin (W1 & N1 & G1 & I1 & X1 & B1).
    set (v := rand_source s1 (rand_calls s1)).
    set (s2 := State (mem_currentGen s1) (mem_nextGen s1) (generationCounter s1)
                 (rand_source s1) (S (rand_calls s1)) (stdin s1) (trace s1)).
    destruct (store_in_bounds currentGen i j (Z.rem (Z.of_N v) 2) s2 W1 Hin)
      as (b & E2 & Wb & Vb & Ob).
    exists (log (CellWrite currentGen i j (Z.rem (Z.of_N v) 2)) (upd s2 currentGen b)).
    split; [exact E2|]. repeat (split; [done|]). split.
    + eapply extends_trans; [exact X1|].
      exists [CellWrite currentGen i j (Z.rem (Z.of_N v) 2)]. split; [done|].
      apply Forall_singleton. repeat split; try apply Hin. apply rem_2_binary.
    + intros x y w Hxy Hb Hw. simpl in Hw.
      apply before_next in Hb as [Hb|[= -> ->]].
      * rewrite Ob in Hw; [by eapply B1|].
        intros [= -> ->]. unfold before in Hb. lia.
      * rewrite Vb in Hw. injection Hw as <-. apply rem_2_binary.
  - intros i s1 Hi (W1 & N1 & G1 & I1 & X1 & B1). repeat (split; [done|]).
    intros x y v Hxy Hb. apply B1; [done|]. by apply before_row.
  - exists s'. repeat (split; [done|]). split; [|done].
    intros x y v Hv.
    destruct (decide (in_bounds x y)) as [Hxy|Hout].
    + apply (B x y v Hxy); [by apply before_end|done].
    + by rewrite cell_get_outside in Hv.
Qed.

Lemma next_state_binary v n : next_state v n = 0 ∨ next_state v n = 1.
Proof.
  unfold next_state.
  destruct (v =? 1), (n <? 2), ((n =? 2) || (n =? 3)), (3 <? n), (n =? 3); auto.
Qed.

Lemma binary_in_bounds (b : grid) :
  wf_board b →
  (∀ x y v, in_bounds x y → cell_get b x y = Some v → v = 0 ∨ v = 1) →
  binary b.
Proof.
  intros Hwf Hb x y v Hv. destruct (decide (in_bounds x y)) as [Hxy|Hout].
  - by eapply Hb.
  - by rewrite cell_get_outside in Hv.
Qed.

Lemma next_grid_binary b : binary (next_grid b).
Proof.
  apply binary_in_bounds; [apply next_grid_wf|].
  intros x y v Hxy Hv. rewrite next_grid_cell in Hv by done.
  injection Hv as <-. apply next_state_binary.
Qed.

Lemma dead_grid_binary : binary dead_grid.
Proof.
  apply binary_in_bounds; [apply dead_grid_wf|].
  intros x y v Hxy Hv. rewrite dead_grid_cell in Hv by done.
  injection Hv as <-. by left.
Qed.

(** ** The loop of [main] *)

Lemma int_wrap_is_int z : is_int (int_wrap z).
Proof.
  unfold is_int, int_wrap, INT_MIN, INT_MAX.
  pose proof (Z.mod_pos_bound (z - -2147483648) 4294967296 ltac:(lia)). lia.
Qed.

Lemma int_wrap_id z : is_int z → int_wrap z = z.
Proof.
  unfold is_int, int_wrap, INT_MIN, INT_MAX. intros Hz.
  rewrite Z.mod_small by lia. lia.
Qed.

Lemma int_wrap_add z k : int_wrap (int_wrap z + k) = int_wrap (z + k).
Proof.
  unfold int_wrap.
  replace ((z - INT_MIN) `mod` 4294967296 + INT_MIN + k - INT_MIN)
    with ((z - INT_MIN) `mod` 4294967296 + k) by lia.
  rewrite Zplus_mod_idemp_l.
  by replace (z - INT_MIN + k) with (z + k - INT_MIN) by lia.
Qed.

(** Below [INT_MAX] the increment of an [int] is the next integer. *)
Lemma int_wrap_succ z : INT_MIN ≤ z < INT_MAX → int_wrap (z + 1) = z + 1.
Proof. intros Hz. apply int_wrap_id. unfold is_int, INT_MIN, INT_MAX in *. lia. Qed.

(** [generationsAreIdentical] decides whether the two boards are equal, and
    only reads. *)
Lemma generationsAreIdentical_decides board1 board2 s :
  wf_board (sel s board1) → wf_board (sel s board2) →
  ∃ (res : bool) es,
    generationsAreIdentical board1 board2 ROW s = Some (res, logs es s) ∧
    (res = true ↔ sel s board1 = sel s board2).
Proof.
  intros Hwf1 Hwf2.
  destruct (generationsAreIdentical_run board1 board2 s Hwf1 Hwf2)
    as (res & s' & E & Hres).
  destruct res.
  - destruct Hres as [Hagree ->]. eexists true, _. split; [done|].
    split; [intros _|done].
    apply board_ext; [done..|]. intros x y Hxy.
    by apply Hagree, before_end.
  - destruct Hres as (i & j & (Hin & Hne & _) & ->). eexists false, _.
    split; [done|]. split; [done|]. intros Heq. by rewrite Heq in Hne.
Qed.

(** Lines 95-106: the quit test comes first, the comparison after it. *)
Lemma after_prompt_run c s :
  wf_board (sel s currentGen) → wf_board (sel s nextGen) →
  ∃ r s',
    after_prompt c s = Some (r, s') ∧
    same_io s s' ∧
    if is_quit c then
      r = Some UserQuit ∧ s' = s
    else if decide (sel s nextGen = sel s currentGen) then
      r = Some Stable ∧
      sel s' currentGen = sel s currentGen ∧
      sel s' nextGen = sel s nextGen
    else
      r = None ∧
      sel s' currentGen = sel s nextGen ∧
      sel s' nextGen = dead_grid.
Proof.
  intros Hcur Hnxt. unfold after_prompt. fold (is_quit c).
  destruct (is_quit c).
  { exists (Some UserQuit), s. split; [done|]. split; [apply same_io_refl|done]. }
  destruct (generationsAreIdentical_decides currentGen nextGen s Hcur Hnxt)
    as (res & es & E & Hres).
  rewrite (bind_run _ _ _ _ _ E).
  destruct res, (decide (sel s nextGen = sel s currentGen)) as [Heq|Hne].
  - eexists (Some Stable), _. split; [done|]. by repeat split.
  - exfalso. apply Hne. symmetry. by apply Hres.
  - symmetry in Heq. by apply Hres in Heq.
  - destruct (makeCurrentGenSameAsNextGen_run currentGen nextGen (logs es s))
      as (s' & E' & C' & N' & IO'); [done..|].
    rewrite (bind_run _ _ _ _ _ E').
    exists None, s'. split; [done|]. split; [|done].
    eapply same_io_trans; [apply same_io_logs|exact IO'].
Qed.

(** One pass through the body of the loop. *)
Lemma generation_step_run s :
  wf_board (sel s currentGen) → wf_board (sel s nextGen) →
  ∃ r s',
    generation_step s = Some (r, s') ∧
    generationCounter s' = int_wrap (generationCounter s + 1) ∧
    stdin s' = tail (stdin s) ∧
    if is_quit (next_char s) then
      r = Some UserQuit ∧
      sel s' currentGen = sel s currentGen ∧
      sel s' nextGen = next_grid (sel s currentGen)
    else if decide (next_grid (sel s currentGen) = sel s currentGen) then
      r = Some Stable ∧
      sel s' currentGen = sel s currentGen ∧
      sel s' nextGen = next_grid (sel s currentGen)
    else
      r = None ∧
      sel s' currentGen = next_grid (sel s currentGen) ∧
      sel s' nextGen = dead_grid.
Proof.
  intros Hcur Hnxt.
  destruct (computeNextGeneration_run s Hcur Hnxt)
    as (s1 & E1 & C1 & N1 & (G1 & _ & _ & I1) & _).
  unfold generation_step. rewrite (bind_run _ _ _ _ _ E1).
  unfold next_char. rewrite <- I1, <- G1. clear E1 G1 I1.
  set (G := sel s currentGen) in *. clearbody G. clear s Hnxt.
  destruct s1 as [cur1 nxt1 gc1 rs1 rc1 in1 tr1].
  cbn [sel stdin generationCounter mem_currentGen mem_nextGen] in *.
  subst cur1 nxt1.
  unfold generationCounter_post_incr, printBoard, cout, cin_get, bind at 1 2 3 4.
  cbn [stdin log logs sel mem_currentGen mem_nextGen generationCounter
       rand_source rand_calls trace].
  destruct in1 as [|c rest];
    match goal with
    | |- context [after_prompt ?c ?s2] =>
        destruct (after_prompt_run c s2) as (r & s' & E & (G' & _ & _ & I') & Hr);
          [done|apply next_grid_wf|]
    end.
  all: exists r, s'; split; [done|]; split; [done|]; split; [done|].
  all: cbn [sel mem_currentGen mem_nextGen log logs] in Hr.
  all: destruct (is_quit _); [by destruct Hr as [-> ->]|].
  all: by destruct (decide (next_grid G = G)).
Qed.

(** The loop keeps both boards two-valued, for as long as it runs. *)
Lemma generations_run fuel : ∀ s,
  wf_board (sel s currentGen) → wf_board (sel s nextGen) →
  binary (sel s currentGen) →
  ∃ r s',
    generations fuel s = Some (r, s') ∧
    wf_board (sel s' currentGen) ∧ wf_board (sel s' nextGen) ∧
    binary (sel s' currentGen) ∧
    (binary (sel s nextGen) ∨ fuel ≠ O → binary (sel s' nextGen)).
Proof.
  induction fuel as [|fuel IH]; intros s Hcur Hnxt Hbin.
  - exists None, s. split; [done|]. repeat (split; [done|]). by intros [?|?].
  - destruct (generation_step_run s Hcur Hnxt) as (r & s1 & E1 & _ & _ & Hr).
    cbn [generations]. rewrite (bind_run _ _ _ _ _ E1).
    assert (Hs1 : wf_board (sel s1 currentGen) ∧ wf_board (sel s1 nextGen) ∧
                  binary (sel s1 currentGen) ∧ binary (sel s1 nextGen)).
    { destruct (is_quit _); [|destruct (decide _)];
        destruct Hr as (_ & -> & ->);
        eauto 10 using next_grid_wf, next_grid_binary, dead_grid_wf, dead_grid_binary. }
    destruct Hs1 as (W1 & W1' & B1 & B1').
    destruct r as [o|].
    + exists (Some o), s1. split; [done|]. by repeat (split; [done|]).
    + destruct (IH s1 W1 W1' B1) as (r & s2 & E2 & W2 & W2' & B2 & B2').
      exists r, s2. split; [done|]. repeat (split; [done|]).
      intros _. apply B2'. by left.
Qed.

(** [main] up to the loop: the first generation is seeded and printed. *)
Lemma main_init_run s :
  wf_board (sel s currentGen) →
  ∃ s', main_init s = Some (tt, s') ∧
        wf_board (sel s' currentGen) ∧
        binary (sel s' currentGen) ∧
        sel s' nextGen = sel s nextGen ∧
        generationCounter s' = 2.
Proof.
  intros Hcur.
  destruct (randomSeed_run s Hcur) as (s1 & E1 & W1 & B1 & N1 & _).
  unfold main_init. rewrite (bind_run _ _ _ _ _ E1).
  eexists. split; [reflexivity|]. by destruct s1.
Qed.

(** [main], for any number of generations. *)
Lemma main_run fuel s :
  wf_board (sel s currentGen) → wf_board (sel s nextGen) →
  ∃ r s',
    main fuel s = Some (r, s') ∧
    binary (sel s' currentGen) ∧
    (fuel ≠ O → binary (sel s' nextGen)).
Proof.
  intros Hcur Hnxt.
  destruct (main_init_run s Hcur) as (s1 & E1 & W1 & B1 & N1 & _).
  unfold main. rewrite (bind_run _ _ _ _ _ E1).
  destruct (generations_run fuel s1) as (r & s' & E & _ & _ & B & B');
    [done|by rewrite N1|done|].
  exists r, s'. split; [done|]. split; [done|]. intros Hf. apply B'. by right.
Qed.

(** * The properties of the specification *)

Lemma blinker_wf : wf_board blinker.
Proof. split; [reflexivity|]. repeat constructor. Defined.

Lemma block_wf : wf_board block.
Proof. split; [reflexivity|]. repeat constructor. Defined.

Lemma stale_wf : wf_board stale.
Proof. split; [reflexivity|]. repeat constructor. Defined.

Lemma in_bounds_1_1 : in_bounds 1 1.
Proof. by vm_compute. Defined.

(** The fixed patterns of the specification. *)
Example block_is_still_life : next_grid block = block.
Proof. reflexivity. Qed.

Example lonely_cell_dies :
  next_grid [ [0; 0; 0; 0]; [0; 0; 0; 0]; [0; 0; 1; 0]; [0; 0; 0; 0]; [0; 0; 0; 0] ]
  = dead_grid.
Proof. reflexivity. Qed.

Example blinker_turns :
  next_grid blinker =
  [ [0; 1; 0; 0]; [0; 1; 0; 0]; [0; 1; 0; 0]; [0; 0; 0; 0]; [0; 0; 0; 0] ].
Proof. reflexivity. Qed.

Example corner_reads_three_cells :
  (λ p, trace p.2) <$> countNeighbors currentGen 0 0 (at_loop block stale []) =
  Some [CellRead currentGen 0 1; CellRead currentGen 1 0; CellRead currentGen 1 1].
Proof. reflexivity. Qed.

(** ** The transition rule *)

(** C1: for a board [currentGen] and a cell [(r, c)] on it, with [n] the
    result of [countNeighbors] there, the next-generation loops leave in
    [nextGen[r][c]]: 0 for a live cell with [n < 2], 1 for a live cell with
    [n] 2 or 3, 0 for a live cell with [n > 3], 1 for a dead cell with
    [n = 3], and 0 for a dead cell with any other [n]. *)
Theorem C1_next_generation_rule s r c :
  wf_board (sel s currentGen) → wf_board (sel s nextGen) → in_bounds r c →
  ∃ n s1 s',
    countNeighbors currentGen r c s = Some (n, s1) ∧
    computeNextGeneration s = Some (tt, s') ∧
    let old := cell_get (sel s currentGen) r c in
    let new := cell_get (sel s' nextGen) r c in
    (old = Some 1 → n < 2 → new = Some 0) ∧
    (old = Some 1 → n = 2 ∨ n = 3 → new = Some 1) ∧
    (old = Some 1 → 3 < n → new = Some 0) ∧
    (old = Some 0 → n = 3 → new = Some 1) ∧
    (old = Some 0 → n ≠ 3 → new = Some 0).
Proof.
  intros Hcur Hnxt Hin.
  destruct (countNeighbors_live_neighbors currentGen r c s Hcur) as (s1 & En & _).
  destruct (computeNextGeneration_cells s Hcur Hnxt) as (s' & E & _ & _ & _ & _ & V).
  exists (live_neighbors (sel s currentGen) r c), s1, s'.
  split; [done|]. split; [done|]. cbv zeta. rewrite (V r c Hin).
  unfold next_value, cell, next_state.
  set (n := live_neighbors (sel s currentGen) r c).
  repeat split; intros -> Hn; cbn [default]; f_equal.
  - replace (1 =? 1) with true by done.
    replace (n <? 2) with true by lia. replace ((n =? 2) || (n =? 3)) with false by lia.
    by replace (3 <? n) with false by lia.
  - replace (1 =? 1) with true by done.
    replace ((n =? 2) || (n =? 3)) with true by lia.
    by replace (3 <? n) with false by lia.
  - replace (1 =? 1) with true by done. by replace (3 <? n) with true by lia.
  - replace (0 =? 1) with false by done. by replace (n =? 3) with true by lia.
  - replace (0 =? 1) with false by done. by replace (n =? 3) with false by lia.
Qed.

Lemma C1_next_generation_rule_witness :
  ∃ n s1 s',
    countNeighbors currentGen 1 1 (at_loop blinker stale []) = Some (n, s1) ∧
    computeNextGeneration (at_loop blinker stale []) = Some (tt, s') ∧
    let old := cell_get blinker 1 1 in
    let new := cell_get (sel s' nextGen) 1 1 in
    (old = Some 1 → n < 2 → new = Some 0) ∧
    (old = Some 1 → n = 2 ∨ n = 3 → new = Some 1) ∧
    (old = Some 1 → 3 < n → new = Some 0) ∧
    (old = Some 0 → n = 3 → new = Some 1) ∧
    (old = Some 0 → n ≠ 3 → new = Some 0).
Proof.
  exact (C1_next_generation_rule (at_loop blinker stale []) 1 1
           blinker_wf stale_wf in_bounds_1_1).
Defined.

(** ** Counting neighbours *)

(** C2: on a board and for a cell [(r, c)] on it, [countNeighbors] returns,
    without a fault, the number of live cells among the positions
    [(r, c) + d], [d] one of the eight offsets (-1,-1) (-1,0) (-1,1) (0,-1)
    (0,1) (1,-1) (1,0) (1,1), that lie on the board; the number is between 0
    and 8.  It leaves the state as it was but for the trace, which it
    continues with its reads: one read of the board at each of these eight
    positions that lies on the board, and nothing else, so no read falls
    outside the board and no position is reached by wrapping around. *)
Theorem C2_countNeighbors board r c s :
  wf_board (sel s board) → in_bounds r c →
  ∃ n reads,
    countNeighbors board r c s = Some (n, logs reads s) ∧
    n = Z.of_nat (length (filter (live_at (sel s board)) (shift r c <$> neighbor_offsets))) ∧
    0 ≤ n ≤ 8 ∧
    reads ≡ₚ read_of board <$> filter inside (shift r c <$> neighbor_offsets) ∧
    ∀ e, e ∈ reads → ∃ x y, e = CellRead board x y ∧ in_bounds x y.
Proof.
  intros Hwf _.
  exists (live_neighbors (sel s board) r c),
         (read_of board <$> filter inside (neighbors_upto r c 8)).
  split; [|split; [done|split; [apply live_neighbors_range|split]]].
  - rewrite countNeighbors_run by done. by rewrite live_neighbors_upto_8.
  - by rewrite (neighbors_upto_8 r c).
  - intros e He. apply list_elem_of_fmap in He as ([x y] & -> & Hp).
    apply list_elem_of_filter in Hp as [Hp _]. by exists x, y.
Qed.

Lemma C2_countNeighbors_witness :
  ∃ n reads,
    countNeighbors currentGen 1 1 (at_loop blinker stale []) =
      Some (n, logs reads (at_loop blinker stale [])) ∧
    n = Z.of_nat (length (filter (live_at blinker) (shift 1 1 <$> neighbor_offsets))) ∧
    0 ≤ n ≤ 8 ∧
    reads ≡ₚ read_of currentGen <$> filter inside (shift 1 1 <$> neighbor_offsets) ∧
    ∀ e, e ∈ reads → ∃ x y, e = CellRead currentGen x y ∧ in_bounds x y.
Proof.
  exact (C2_countNeighbors currentGen 1 1 (at_loop blinker stale [])
           blinker_wf in_bounds_1_1).
Defined.

(** A read outside the board would have been a fault: [load] has no value
    there. *)
Example read_outside_faults :
  load currentGen (-1) 0 (at_loop blinker stale []) = None ∧
  load currentGen 0 4 (at_loop blinker stale []) = None ∧
  load currentGen 5 0 (at_loop blinker stale []) = None.
Proof. by repeat split. Qed.

(** ** The loop of [main] *)

(** C3, as stated, fails: on the block, which is stable, with a [q] typed at
    the prompt, the stability check holds and the specification's transition
    ends in [Stable], but the pass of the loop ends in [UserQuit]. *)
Lemma C3_quit_wins_over_stable :
  fst <$> stability_check (at_loop block stale [char_q]) = Some true ∧
  spec_transition true (is_quit (next_char (at_loop block stale [char_q]))) =
    Some Stable ∧
  fst <$> generation_step (at_loop block stale [char_q]) = Some (Some UserQuit) ∧
  Some UserQuit ≠ Some Stable.
Proof. by repeat split. Qed.

(** C3, amended: in each pass of the loop, after the next generation is
    computed from [currentGen] into [nextGen], the quit request is looked at
    first: if the character read is [q] or [Q] the run ends in [UserQuit],
    whether the boards are equal or not; only otherwise, if
    [generationsAreIdentical] holds of the two boards, it ends in [Stable];
    and otherwise [currentGen] becomes the computed generation, the
    generation counter is one more than before the pass as long as it was
    below [INT_MAX] (it is an [int], and the increment of [INT_MAX] is
    [INT_MIN]), and the loop goes on. *)
Theorem C3_generation_step s :
  wf_board (sel s currentGen) → wf_board (sel s nextGen) →
  ∃ s1 same s2 r s',
    computeNextGeneration s = Some (tt, s1) ∧
    generationsAreIdentical currentGen nextGen ROW s1 = Some (same, s2) ∧
    generation_step s = Some (r, s') ∧
    (is_quit (next_char s) = true → r = Some UserQuit) ∧
    (is_quit (next_char s) = false → same = true → r = Some Stable) ∧
    (is_quit (next_char s) = false → same = false →
       r = None ∧
       sel s' currentGen = sel s1 nextGen ∧
       generationCounter s' = int_wrap (generationCounter s + 1) ∧
       (INT_MIN ≤ generationCounter s < INT_MAX →
          generationCounter s' = generationCounter s + 1)).
Proof.
  intros Hcur Hnxt.
  destruct (computeNextGeneration_run s Hcur Hnxt) as (s1 & E1 & C1 & N1 & _).
  destruct (generationsAreIdentical_decides currentGen nextGen s1)
    as (same & es & E2 & Hsame); [by rewrite C1|rewrite N1; apply next_grid_wf|].
  destruct (generation_step_run s Hcur Hnxt) as (r & s' & E & G & _ & Hr).
  exists s1, same, (logs es s1), r, s'. repeat (split; [done|]).
  rewrite C1, N1 in Hsame.
  destruct (is_quit (next_char s)).
  - split; [intros _; apply Hr|]. by split.
  - split; [done|].
    destruct (decide (next_grid (sel s currentGen) = sel s currentGen)) as [Heq|Hne].
    + split; [intros _ _; apply Hr|]. intros _ ->.
      symmetry in Heq. by apply Hsame in Heq.
    + split.
      * intros _ ->. exfalso. apply Hne. symmetry. by apply Hsame.
      * intros _ _. rewrite N1. destruct Hr as (-> & -> & _).
        repeat (split; [done|]). intros Hrange. by rewrite G, int_wrap_succ.
Qed.

Lemma C3_generation_step_witness :
  ∃ s1 same s2 r s',
    computeNextGeneration (at_loop blinker stale [10]) = Some (tt, s1) ∧
    generationsAreIdentical currentGen nextGen ROW s1 = Some (same, s2) ∧
    generation_step (at_loop blinker stale [10]) = Some (r, s') ∧
    (is_quit (next_char (at_loop blinker stale [10])) = true → r = Some UserQuit) ∧
    (is_quit (next_char (at_loop blinker stale [10])) = false → same = true →
       r = Some Stable) ∧
    (is_quit (next_char (at_loop blinker stale [10])) = false → same = false →
       r = None ∧
       sel s' currentGen = sel s1 nextGen ∧
       generationCounter s' = int_wrap (2 + 1) ∧
       (INT_MIN ≤ 2 < INT_MAX → generationCounter s' = 2 + 1)).
Proof.
  exact (C3_generation_step (at_loop blinker stale [10]) blinker_wf stale_wf).
Defined.

(** The three ways through a pass of the loop, run. *)
Example a_pass_that_goes_on :
  (λ p, (p.1, sel p.2 currentGen, sel p.2 nextGen, generationCounter p.2))
    <$> generation_step (at_loop blinker stale [10]) =
  Some (None, next_grid blinker, dead_grid, 3).
Proof. reflexivity. Qed.

Example a_pass_that_ends_stable :
  fst <$> generation_step (at_loop block stale [10]) = Some (Some Stable).
Proof. reflexivity. Qed.

Example a_pass_that_ends_on_quit :
  fst <$> generation_step (at_loop blinker stale [char_Q]) = Some (Some UserQuit).
Proof. reflexivity. Qed.

(** ** Comparing two boards *)

(** C4: for two boards, [generationsAreIdentical] returns true if and only
    if the boards hold equal values at every cell; and when it returns false
    it has stopped at the first cell, in row-major order, where they differ:
    the boards agree on every cell before it, and the reads of the run are
    those of the cells up to and including it, one of each board per cell, so
    that no later cell is compared. *)
Theorem C4_generationsAreIdentical board1 board2 s :
  wf_board (sel s board1) → wf_board (sel s board2) →
  ∃ (res : bool) s',
    generationsAreIdentical board1 board2 ROW s = Some (res, s') ∧
    (res = true ↔
       ∀ x y, in_bounds x y →
         cell_get (sel s board1) x y = cell_get (sel s board2) x y) ∧
    (res = false →
       ∃ i j,
         in_bounds i j ∧
         cell_get (sel s board1) i j ≠ cell_get (sel s board2) i j ∧
         (∀ x y, in_bounds x y → before i j x y →
            cell_get (sel s board1) x y = cell_get (sel s board2) x y) ∧
         s' = logs ((cells_before i j ++ [(i, j)]) ≫= compare_reads board1 board2) s).
Proof.
  intros Hwf1 Hwf2.
  destruct (generationsAreIdentical_run board1 board2 s Hwf1 Hwf2)
    as (res & s' & E & Hres).
  exists res, s'. split; [done|]. destruct res.
  - destruct Hres as [Hagree _]. split; [|done]. split; [|done].
    intros _ x y Hxy. by apply Hagree, before_end.
  - destruct Hres as (i & j & (Hin & Hne & Hagree) & Hs'). split.
    + split; [done|]. intros Hall. destruct Hne. by apply Hall.
    + intros _. by exists i, j.
Qed.

Lemma C4_generationsAreIdentical_witness :
  ∃ (res : bool) s',
    generationsAreIdentical currentGen nextGen ROW (at_loop blinker block []) =
      Some (res, s') ∧
    (res = true ↔
       ∀ x y, in_bounds x y → cell_get blinker x y = cell_get block x y) ∧
    (res = false →
       ∃ i j,
         in_bounds i j ∧
         cell_get blinker i j ≠ cell_get block i j ∧
         (∀ x y, in_bounds x y → before i j x y →
            cell_get blinker x y = cell_get block x y) ∧
         s' = logs ((cells_before i j ++ [(i, j)]) ≫= compare_reads currentGen nextGen)
                (at_loop blinker block [])).
Proof.
  exact (C4_generationsAreIdentical currentGen nextGen (at_loop blinker block [])
           blinker_wf block_wf).
Defined.

(** The blinker and the block differ first at the cell (1, 0): five cells
    are compared, fifteen are not. *)
Example comparison_stops_at_first_mismatch :
  (λ p, (p.1, trace p.2))
    <$> generationsAreIdentical currentGen nextGen ROW (at_loop blinker block []) =
  Some (false,
        [ CellRead currentGen 0 0; CellRead nextGen 0 0;
          CellRead currentGen 0 1; CellRead nextGen 0 1;
          CellRead currentGen 0 2; CellRead nextGen 0 2;
          CellRead currentGen 0 3; CellRead nextGen 0 3;
          CellRead currentGen 1 0; CellRead nextGen 1 0 ]).
Proof. reflexivity. Qed.

(** C7: [generationsAreIdentical] of a board and itself returns true, be it
    the same array given twice or two arrays with the same contents; and for
    two boards it returns the same value whichever of them comes first. *)
Theorem C7_generationsAreIdentical_refl_sym board1 board2 s :
  wf_board (sel s board1) → wf_board (sel s board2) →
  (∃ s', generationsAreIdentical board1 board1 ROW s = Some (true, s')) ∧
  (sel s board1 = sel s board2 →
     ∃ s', generationsAreIdentical board1 board2 ROW s = Some (true, s')) ∧
  (∃ (res : bool) s1 s2,
     generationsAreIdentical board1 board2 ROW s = Some (res, s1) ∧
     generationsAreIdentical board2 board1 ROW s = Some (res, s2)).
Proof.
  intros Hwf1 Hwf2.
  assert (Heq : ∀ a1 a2, wf_board (sel s a1) → wf_board (sel s a2) →
            sel s a1 = sel s a2 →
            ∃ s', generationsAreIdentical a1 a2 ROW s = Some (true, s')).
  { intros a1 a2 H1 H2 Heq.
    destruct (generationsAreIdentical_decides a1 a2 s H1 H2) as (res & es & E & Hres).
    apply Hres in Heq as ->. by eexists. }
  split; [by apply Heq|]. split; [by apply Heq|].
  destruct (generationsAreIdentical_decides board1 board2 s Hwf1 Hwf2)
    as (res12 & es12 & E12 & H12).
  destruct (generationsAreIdentical_decides board2 board1 s Hwf2 Hwf1)
    as (res21 & es21 & E21 & H21).
  exists res12, (logs es12 s), (logs es21 s). split; [done|].
  rewrite E21. do 2 f_equal.
  destruct res12, res21; try done.
  - destruct H12 as [H12 _]. apply H21. symmetry. by apply H12.
  - destruct H21 as [H21 _]. symmetry. apply H12. symmetry. by apply H21.
Qed.

Lemma C7_generationsAreIdentical_refl_sym_witness :
  (∃ s', generationsAreIdentical currentGen currentGen ROW (at_loop blinker block [])
         = Some (true, s')) ∧
  (blinker = block →
     ∃ s', generationsAreIdentical currentGen nextGen ROW (at_loop blinker block [])
           = Some (true, s')) ∧
  (∃ (res : bool) s1 s2,
     generationsAreIdentical currentGen nextGen ROW (at_loop blinker block [])
       = Some (res, s1) ∧
     generationsAreIdentical nextGen currentGen ROW (at_loop blinker block [])
       = Some (res, s2)).
Proof.
  exact (C7_generationsAreIdentical_refl_sym currentGen nextGen
           (at_loop blinker block []) blinker_wf block_wf).
Defined.

(** ** The next generation as an operation *)

Lemma wf_board_row_lengths (b : grid) :
  wf_board b → length <$> b = replicate (Z.to_nat ROW) (Z.to_nat COL).
Proof.
  intros [Hlen Hrows]. rewrite <- Hlen. clear Hlen.
  induction Hrows as [|row b Hrow _ IH]; [done|].
  cbn [fmap list_fmap length replicate]. by rewrite Hrow, <- IH.
Qed.

(** C8: the next-generation loops return, with in [nextGen] a board of the
    dimensions of [currentGen] (as many rows, each as long); [currentGen] is
    as it was, and none of the accesses of the run is a write to it. *)
Theorem C8_next_generation_frame s :
  wf_board (sel s currentGen) → wf_board (sel s nextGen) →
  ∃ s' accesses,
    computeNextGeneration s = Some (tt, s') ∧
    length <$> sel s' nextGen = length <$> sel s currentGen ∧
    sel s' currentGen = sel s currentGen ∧
    trace s' = trace s ++ accesses ∧
    ∀ x y v, CellWrite currentGen x y v ∉ accesses.
Proof.
  intros Hcur Hnxt.
  destruct (computeNextGeneration_run s Hcur Hnxt)
    as (s' & E & C & N & _ & accesses & T & Hacc).
  exists s', accesses. split; [done|]. split; [|split; [done|split; [done|]]].
  - rewrite N, !wf_board_row_lengths; [done..|apply next_grid_wf].
  - intros x y v Hw. apply (proj1 (Forall_forall _ _) Hacc) in Hw.
    by destruct Hw.
Qed.

Lemma C8_next_generation_frame_witness :
  ∃ s' accesses,
    computeNextGeneration (at_loop blinker stale []) = Some (tt, s') ∧
    length <$> sel s' nextGen = length <$> blinker ∧
    sel s' currentGen = blinker ∧
    trace s' = [] ++ accesses ∧
    ∀ x y v, CellWrite currentGen x y v ∉ accesses.
Proof.
  exact (C8_next_generation_frame (at_loop blinker stale []) blinker_wf stale_wf).
Defined.

(** C9: the board the next-generation loops leave in [nextGen] depends on
    [currentGen] alone: from two states with the same [currentGen], whatever
    else they hold ([nextGen], the counter, the random source, the input, the
    trace), the loops leave the same [nextGen]. *)
Theorem C9_next_generation_deterministic s t :
  wf_board (sel s currentGen) → wf_board (sel s nextGen) → wf_board (sel t nextGen) →
  sel t currentGen = sel s currentGen →
  ∃ s' t',
    computeNextGeneration s = Some (tt, s') ∧
    computeNextGeneration t = Some (tt, t') ∧
    sel s' nextGen = sel t' nextGen.
Proof.
  intros Hcur Hnxt Hnxt' Heq.
  destruct (computeNextGeneration_run s Hcur Hnxt) as (s' & Es & _ & Ns & _).
  destruct (computeNextGeneration_run t) as (t' & Et & _ & Nt & _);
    [by rewrite Heq|done|].
  exists s', t'. split; [done|]. split; [done|]. by rewrite Ns, Nt, Heq.
Qed.

Lemma C9_next_generation_deterministic_witness :
  ∃ s' t',
    computeNextGeneration (at_loop blinker stale []) = Some (tt, s') ∧
    computeNextGeneration (State blinker block 7 (λ _, 5%N) 3 [char_q] [Prompted])
      = Some (tt, t') ∧
    sel s' nextGen = sel t' nextGen.
Proof.
  exact (C9_next_generation_deterministic (at_loop blinker stale [])
           (State blinker block 7 (λ _, 5%N) 3 [char_q] [Prompted])
           blinker_wf stale_wf block_wf eq_refl).
Defined.

(** C6: if the next-generation loops leave in [nextGen] the board that is in
    [currentGen], then run again on that result as [currentGen] they leave
    the same board once more. *)
Theorem C6_stable_stays_stable s s1 t :
  wf_board (sel s currentGen) → wf_board (sel s nextGen) → wf_board (sel t nextGen) →
  computeNextGeneration s = Some (tt, s1) →
  sel s1 nextGen = sel s currentGen →
  sel t currentGen = sel s1 nextGen →
  ∃ t1, computeNextGeneration t = Some (tt, t1) ∧
        sel t1 nextGen = sel s currentGen.
Proof.
  intros Hcur Hnxt Hnxt' Es Hstable Ht.
  destruct (computeNextGeneration_run s Hcur Hnxt) as (s' & Es' & _ & Ns & _).
  rewrite Es in Es'. injection Es' as <-.
  destruct (computeNextGeneration_run t) as (t1 & Et & _ & Nt & _);
    [by rewrite Ht, Hstable|done|].
  exists t1. split; [done|].
  (* the second run starts from the board the first one started from *)
  by rewrite Nt, Ht, Hstable, <- Ns.
Qed.

Lemma C6_stable_stays_stable_witness :
  ∃ t1, computeNextGeneration (at_loop block dead_grid [10]) = Some (tt, t1) ∧
        sel t1 nextGen = block.
Proof.
  apply (C6_stable_stays_stable (at_loop block stale [])
           (after_next (at_loop block stale []))
           (at_loop block dead_grid [10])).
  - exact block_wf.
  - exact stale_wf.
  - exact dead_grid_wf.
  - vm_compute. reflexivity.
  - vm_compute. reflexivity.
  - vm_compute. reflexivity.
Defined.

(** ** Adopting the next generation *)

(** C10: for two arrays [board1] and [board2], after
    [makeCurrentGenSameAsNextGen (board1, board2, ROW)] every cell of
    [board1] holds what [board2] held there before the call, and every cell
    of [board2] holds 0. *)
Theorem C10_makeCurrentGenSameAsNextGen board1 board2 s :
  board1 ≠ board2 →
  wf_board (sel s board1) → wf_board (sel s board2) →
  ∃ s', makeCurrentGenSameAsNextGen board1 board2 ROW s = Some (tt, s') ∧
        ∀ x y, in_bounds x y →
          cell_get (sel s' board1) x y = cell_get (sel s board2) x y ∧
          cell_get (sel s' board2) x y = Some 0.
Proof.
  intros Hne Hwf1 Hwf2.
  destruct (makeCurrentGenSameAsNextGen_cells board1 board2 s Hne Hwf1 Hwf2)
    as (s' & E & _ & _ & _ & Hcells).
  by exists s'.
Qed.

Lemma currentGen_is_not_nextGen : currentGen ≠ nextGen.
Proof. discriminate. Defined.

Lemma C10_makeCurrentGenSameAsNextGen_witness :
  ∃ s', makeCurrentGenSameAsNextGen currentGen nextGen ROW (at_loop blinker block [])
        = Some (tt, s') ∧
        ∀ x y, in_bounds x y →
          cell_get (sel s' currentGen) x y = cell_get block x y ∧
          cell_get (sel s' nextGen) x y = Some 0.
Proof.
  exact (C10_makeCurrentGenSameAsNextGen currentGen nextGen (at_loop blinker block [])
           currentGen_is_not_nextGen blinker_wf block_wf).
Defined.

(** The call of [main], run: the block is adopted, the buffer is cleared. *)
Example adopting_the_block :
  (λ p, (sel p.2 currentGen, sel p.2 nextGen))
    <$> makeCurrentGenSameAsNextGen currentGen nextGen ROW (at_loop blinker block []) =
  Some (block, dead_grid).
Proof. reflexivity. Qed.

(** The theorem is about two arrays.  One array given for both parameters
    is not a pair of boards: each cell is copied onto itself and then
    cleared. *)
Example one_array_given_twice :
  (λ p, sel p.2 currentGen)
    <$> makeCurrentGenSameAsNextGen currentGen currentGen ROW (at_loop blinker block []) =
  Some dead_grid.
Proof. reflexivity. Qed.

(** ** Two-valued cells *)

(** C5: the seeding loops write only 0 or 1, and leave a [currentGen] whose
    cells all hold 0 or 1; the next-generation loops write only 0 or 1, and
    leave a [nextGen] whose cells all hold 0 or 1, whatever the boards held
    before; adopting a two-valued [nextGen] leaves both boards two-valued;
    and so, however long the program runs, every cell of [currentGen] holds
    0 or 1, and so does every cell of [nextGen] once a generation was
    computed into it. *)
Theorem C5_two_valued_cells s fuel :
  wf_board (sel s currentGen) → wf_board (sel s nextGen) →
  (∃ s' accesses,
     randomSeed s = Some (tt, s') ∧
     trace s' = trace s ++ accesses ∧
     (∀ a x y v, CellWrite a x y v ∈ accesses → v = 0 ∨ v = 1) ∧
     binary (sel s' currentGen)) ∧
  (∃ s' accesses,
     computeNextGeneration s = Some (tt, s') ∧
     trace s' = trace s ++ accesses ∧
     (∀ a x y v, CellWrite a x y v ∈ accesses → v = 0 ∨ v = 1) ∧
     binary (sel s' nextGen)) ∧
  (binary (sel s nextGen) →
   ∃ s',
     makeCurrentGenSameAsNextGen currentGen nextGen ROW s = Some (tt, s') ∧
     binary (sel s' currentGen) ∧ binary (sel s' nextGen)) ∧
  (∃ r s',
     main fuel s = Some (r, s') ∧
     binary (sel s' currentGen) ∧
     (fuel ≠ O → binary (sel s' nextGen))).
Proof.
  intros Hcur Hnxt. split; [|split; [|split]].
  - destruct (randomSeed_run s Hcur) as (s' & E & _ & B & _ & _ & _ & acc & T & Hacc).
    exists s', acc. repeat (split; [done|]). split; [|done].
    intros a x y v Hw. apply (proj1 (Forall_forall _ _) Hacc) in Hw. apply Hw.
  - destruct (computeNextGeneration_run s Hcur Hnxt)
      as (s' & E & _ & N & _ & acc & T & Hacc).
    exists s', acc. repeat (split; [done|]). split.
    + intros a x y v Hw. apply (proj1 (Forall_forall _ _) Hacc) in Hw. apply Hw.
    + rewrite N. apply next_grid_binary.
  - intros Hbin.
    destruct (makeCurrentGenSameAsNextGen_run currentGen nextGen s)
      as (s' & E & C & N & _); [done..|].
    exists s'. split; [done|]. rewrite C, N. split; [done|apply dead_grid_binary].
  - apply main_run; done.
Qed.

Lemma C5_two_valued_cells_witness :
  ∃ r s',
    main 3 (State stale stale 1 (λ k, N.of_nat (3 * k + 1)) 0 [10; 10; 10] [])
      = Some (r, s') ∧
    binary (sel s' currentGen) ∧
    (3%nat ≠ O → binary (sel s' nextGen)).
Proof.
  exact (proj2 (proj2 (proj2
    (C5_two_valued_cells
       (State stale stale 1 (λ k, N.of_nat (3 * k + 1)) 0 [10; 10; 10] []) 3
       stale_wf stale_wf)))).
Defined.

(** * Further properties of the code *)

(** ** [countNeighbors] at the borders *)




(** ** What the rule looks at *)

Lemma filter_ext_elem {A} (P Q : A → Prop) `{∀ x, Decision (P x)} `{∀ x, Decision (Q x)}
    (l : list A) :
  (∀ x, x ∈ l → P x ↔ Q x) → filter P l = filter Q l.
Proof.
  induction l as [|x l IH]; intros Hl; [done|].
  assert (Hx : P x ↔ Q x) by (apply Hl; left).
  assert (IH' : filter P l = filter Q l) by (apply IH; intros y Hy; apply Hl; by right).
  destruct (decide (P x)) as [HP|HP].
  - rewrite !filter_cons_True by tauto. by rewrite IH'.
  - rewrite !filter_cons_False by tauto. done.
Qed.

Lemma neighbors_around r c : Forall (λ p, around r c p.1 p.2) (neighbors r c).
Proof.
  unfold neighbors, neighbor_offsets, around, shift.
  cbn [fmap list_fmap].
  repeat (apply Forall_cons_2; [cbn [fst snd]; lia|]). apply Forall_nil_2.
Qed.

Lemma next_state_alive v1 v2 n :
  (v1 = 1 ↔ v2 = 1) → next_state v1 n = next_state v2 n.
Proof.
  intros Hv. unfold next_state.
  destruct (Z.eqb_spec v1 1) as [H1|H1], (Z.eqb_spec v2 1) as [H2|H2]; tauto.
Qed.

(** The next value of a cell is read off which of the cell and the cells
    around it hold exactly 1. *)
Lemma next_value_local (b1 b2 : grid) r c :
  wf_board b1 → wf_board b2 → in_bounds r c →
  (∀ x y, in_bounds x y → around r c x y → alive b1 x y ↔ alive b2 x y) →
  next_value b1 r c = next_value b2 r c.
Proof.
  intros Hwf1 Hwf2 Hin Hsame. unfold next_value.
  assert (Hn : live_neighbors b1 r c = live_neighbors b2 r c).
  { unfold live_neighbors. do 2 f_equal. apply filter_ext_elem.
    intros [x y] Hp. unfold live_at. cbn [fst snd].
    pose proof (proj1 (Forall_forall _ _) (neighbors_around r c) _ Hp) as Har.
    cbn [fst snd] in Har. split; intros [Hxy Hlive]; (split; [done|]);
      by apply (Hsame x y Hxy Har). }
  rewrite Hn. apply next_state_alive.
  destruct (cell_get_in_bounds b1 r c Hwf1 Hin) as [v1 Hv1].
  destruct (cell_get_in_bounds b2 r c Hwf2 Hin) as [v2 Hv2].
  unfold cell. rewrite Hv1, Hv2. cbn [default from_option id].
  assert (Har : around r c r c) by (unfold around; lia).
  specialize (Hsame r c Hin Har). unfold alive in Hsame. rewrite Hv1, Hv2 in Hsame.
  split; intros ->.
  - destruct Hsame as [Hs _]. by injection (Hs eq_refl).
  - destruct Hsame as [_ Hs]. by injection (Hs eq_refl).
Qed.

(** X2: the value the next-generation loops leave in [nextGen[r][c]] depends
    only on which of the cell [(r, c)] and the cells around it hold exactly
    1 in [currentGen]: two runs whose [currentGen] boards have the value 1 at
    the same of these places leave the same value there.  So the rule is
    local, and a cell that holds anything but 1 is as good as a dead one. *)
Theorem X2_next_generation_local s t r c :
  wf_board (sel s currentGen) → wf_board (sel s nextGen) →
  wf_board (sel t currentGen) → wf_board (sel t nextGen) →
  in_bounds r c →
  (∀ x y, in_bounds x y → around r c x y →
     alive (sel s currentGen) x y ↔ alive (sel t currentGen) x y) →
  ∃ s' t',
    computeNextGeneration s = Some (tt, s') ∧
    computeNextGeneration t = Some (tt, t') ∧
    cell_get (sel s' nextGen) r c = cell_get (sel t' nextGen) r c.
Proof.
  intros Hs Hs' Ht Ht' Hin Hsame.
  destruct (computeNextGeneration_cells s Hs Hs') as (s' & Es & _ & _ & _ & _ & Vs).
  destruct (computeNextGeneration_cells t Ht Ht') as (t' & Et & _ & _ & _ & _ & Vt).
  exists s', t'. split; [done|]. split; [done|].
  rewrite Vs, Vt by done. f_equal. by apply next_value_local.
Qed.

Lemma X2_next_generation_local_witness :
  ∃ s' t',
    computeNextGeneration (at_loop blinker stale []) = Some (tt, s') ∧
    computeNextGeneration (at_loop
      [ [0; 5; -2; 0]; [1; 1; 1; 0]; [7; 0; 3; 9]; [1; 1; 1; 1]; [0; 1; 0; 1] ] block [])
      = Some (tt, t') ∧
    cell_get (sel s' nextGen) 1 1 = cell_get (sel t' nextGen) 1 1.
Proof.
  apply (X2_next_generation_local (at_loop blinker stale [])
    (at_loop [ [0; 5; -2; 0]; [1; 1; 1; 0]; [7; 0; 3; 9]; [1; 1; 1; 1]; [0; 1; 0; 1] ]
       block []) 1 1).
  - exact blinker_wf.
  - exact stale_wf.
  - split; [reflexivity|]. repeat constructor.
  - exact block_wf.
  - exact in_bounds_1_1.
  - intros x y [Hx Hy] [Hx' Hy']. unfold ROW, COL in *.
    assert (Hxs : x = 0 ∨ x = 1 ∨ x = 2) by lia.
    assert (Hys : y = 0 ∨ y = 1 ∨ y = 2) by lia.
    destruct Hxs as [->|[->| ->]], Hys as [->|[->| ->]]; vm_compute;
      split; intros Heq; try exact Heq; discriminate Heq.
Defined.

(** ** Loops over the first [r] rows *)

Lemma for_ret_from_split {R} n m i (body : Z → M (option R)) s :
  for_ret_from (n + m) i body s =
  match for_ret_from n i body s with
  | Some (None, s') => for_ret_from m (i + Z.of_nat n) body s'
  | other => other
  end.
Proof.
  revert i s. induction n as [|n IH]; intros i s.
  - cbn [Nat.add for_ret_from Z.of_nat]. unfold ret. by rewrite Z.add_0_r.
  - cbn [Nat.add for_ret_from]. unfold bind.
    destruct (body i s) as [[[v|] s1]|]; [done| |done].
    rewrite IH. by replace (i + 1 + Z.of_nat n) with (i + Z.of_nat (S n)) by lia.
Qed.

Lemma for_fold_from_split {A} n m i (body : Z → A → M A) a s :
  for_fold_from (n + m) i body a s =
  match for_fold_from n i body a s with
  | Some (a', s') => for_fold_from m (i + Z.of_nat n) body a' s'
  | None => None
  end.
Proof.
  revert i a s. induction n as [|n IH]; intros i a s.
  - cbn [Nat.add for_fold_from Z.of_nat]. unfold ret. by rewrite Z.add_0_r.
  - cbn [Nat.add for_fold_from]. unfold bind.
    destruct (body i a s) as [[a1 s1]|]; [|done].
    rewrite IH. by replace (i + 1 + Z.of_nat n) with (i + Z.of_nat (S n)) by lia.
Qed.

(** The two nested loops over the cells of the first [r] rows. *)
Lemma for_rows_inv (I : Z → Z → state → Prop) body r s :
  0 ≤ r ≤ ROW →
  I 0 0 s →
  (∀ i j s, 0 ≤ i < r → 0 ≤ j < COL → I i j s →
     ∃ s', body i j s = Some (tt, s') ∧ I i (j + 1) s') →
  (∀ i s, 0 ≤ i < r → I i COL s → I (i + 1) 0 s) →
  ∃ s', for_ 0 r (λ i, for_ 0 COL (λ j, body i j)) s = Some (tt, s') ∧ I r 0 s'.
Proof.
  intros Hr H0 Hbody Hrow.
  apply (for_inv (λ i s, I i 0 s)); [lia|done|].
  intros i s1 Hi H1.
  destruct (for_inv (λ j s, I i j s) 0 COL (λ j, body i j) s1) as (s2 & E2 & H2);
    [done..| |].
  { intros j s' Hj Hs'. by apply Hbody. }
  exists s2. split; [done|]. by apply Hrow.
Qed.

(** ** [generationsAreIdentical] on the first [r] rows *)

Lemma compare_rows_run board1 board2 r s :
  0 ≤ r ≤ ROW →
  wf_board (sel s board1) → wf_board (sel s board2) →
  ∃ ro s',
    for_ret 0 r (λ i,
      for_ret 0 COL (λ j,
        v1 <- load board1 i j ;;
        v2 <- load board2 i j ;;
        if negb (v1 =? v2) then ret (Some false) else ret None)) s = Some (ro, s') ∧
    match ro with
    | None =>
        agree_before (sel s board1) (sel s board2) r 0 ∧
        compared board1 board2 (cells_before r 0) s s'
    | Some v =>
        v = false ∧
        ∃ i j, i < r ∧ first_mismatch (sel s board1) (sel s board2) i j ∧
               compared board1 board2 (cells_before i j ++ [(i, j)]) s s'
    end.
Proof.
  intros Hr Hwf1 Hwf2.
  set (b1 := sel s board1) in *. set (b2 := sel s board2) in *.
  set (Inv := λ i j s', agree_before b1 b2 i j ∧
                        compared board1 board2 (cells_before i j) s s').
  set (Ret := λ (v : bool) s',
         v = false ∧
         ∃ i j, i < r ∧ first_mismatch b1 b2 i j ∧
                compared board1 board2 (cells_before i j ++ [(i, j)]) s s').
  apply (for_ret_inv (λ i s', Inv i 0 s') Ret 0 r); [lia| |].
  - split.
    + intros x y Hxy Hb. by apply before_start in Hb.
    + unfold compared. by rewrite logs_nil.
  - intros i s1 Hi H1.
    destruct (for_ret_inv (λ j s', Inv i j s') Ret 0 COL
      (λ j, v1 <- load board1 i j ;;
            v2 <- load board2 i j ;;
            if negb (v1 =? v2) then ret (Some false) else ret None) s1)
      as (ro & s2 & E2 & Hr2); [done..| |].
    + intros j s2 Hj [Hagree Hs2].
      assert (Hin : in_bounds i j) by (unfold in_bounds; lia).
      destruct (load_in_bounds board1 i j s2) as (v1 & Hv1 & E1);
        [by rewrite Hs2, sel_logs|done|].
      destruct (load_in_bounds board2 i j (log (CellRead board1 i j) s2))
        as (v2 & Hv2 & E2); [by rewrite sel_log, Hs2, sel_logs|done|].
      rewrite Hs2, sel_logs in Hv1. rewrite sel_log, Hs2, sel_logs in Hv2.
      fold b1 in Hv1. fold b2 in Hv2.
      unfold bind. rewrite E1, E2.
      assert (Hlog : compared board1 board2 (cells_before i j ++ [(i, j)]) s
                (log (CellRead board2 i j) (log (CellRead board1 i j) s2))).
      { unfold compared. rewrite Hs2, !logs_log, bind_app, bind_singleton.
        by rewrite <- app_assoc. }
      destruct (Z.eqb_spec v1 v2) as [->|Hne]; simpl.
      * eexists None, _. split; [done|]. split.
        -- intros x y Hxy Hb. apply before_next in Hb as [Hb|[= -> ->]].
           ++ by apply Hagree.
           ++ by rewrite Hv1, Hv2.
        -- by rewrite cells_before_next by lia.
      * eexists (Some false), _. split; [done|]. split; [done|].
        exists i, j. split; [lia|]. split; [|done]. split; [done|]. split; [|done].
        rewrite Hv1, Hv2. congruence.
    + exists ro, s2. split; [done|]. destruct ro; [done|].
      destruct Hr2 as [Hagree Hs2]. split.
      * intros x y Hxy Hb. apply Hagree; [done|]. by apply before_row.
      * by rewrite <- cells_before_row by lia.
Qed.

(** X3: with [r] at most [ROW], [generationsAreIdentical] compares the first
    [r] rows only: it returns true if and only if the boards hold equal
    values at every cell of these rows, whatever the other rows hold; and
    when it returns true it has read every cell of these rows of both boards,
    and nothing else.  With [r] zero or negative it returns true without a
    read. *)
Theorem X3_generationsAreIdentical_rows board1 board2 r s :
  r ≤ ROW →
  wf_board (sel s board1) → wf_board (sel s board2) →
  ∃ (res : bool) s',
    generationsAreIdentical board1 board2 r s = Some (res, s') ∧
    (res = true ↔
       ∀ x y, in_bounds x y → x < r →
         cell_get (sel s board1) x y = cell_get (sel s board2) x y) ∧
    (res = true →
       s' = logs (cells_before r 0 ≫= compare_reads board1 board2) s) ∧
    (r ≤ 0 → res = true ∧ s' = s).
Proof.
  intros Hr Hwf1 Hwf2. unfold generationsAreIdentical.
  destruct (decide (0 ≤ r)) as [Hr0|Hneg].
  - destruct (compare_rows_run board1 board2 r s) as (ro & s' & E & Hro); [lia|done..|].
    rewrite (bind_run _ _ _ _ _ E). destruct ro as [v|].
    + destruct Hro as (-> & i & j & Hi & (Hin & Hne & _) & Hs').
      exists false, s'. split; [done|].
      split; [|split; [done|intros ?; unfold in_bounds in Hin; lia]].
      split; [done|]. intros Hall. destruct Hne. by apply Hall.
    + destruct Hro as [Hagree Hs']. exists true, s'. split; [done|].
      split; [|split; [done|]].
      * split; [|done]. intros _ x y Hxy Hx. apply Hagree; [done|].
        unfold before. lia.
      * intros Hr'. split; [done|]. assert (r = 0) as -> by lia.
        rewrite Hs'. apply logs_nil.
  - exists true, s. unfold for_ret.
    replace (Z.to_nat (r - 0)) with O by lia.
    split; [done|]. split; [|split; [|done]].
    + split; [|done]. intros _ x y [Hx _] Hxr. lia.
    + intros _. unfold cells_before.
      rewrite (seqZ_nil 0 r) by lia. cbn. by rewrite logs_nil.
Qed.

Lemma X3_generationsAreIdentical_rows_witness :
  ∃ (res : bool) s',
    generationsAreIdentical currentGen nextGen 1 (at_loop blinker block []) =
      Some (res, s') ∧
    (res = true ↔
       ∀ x y, in_bounds x y → x < 1 → cell_get blinker x y = cell_get block x y) ∧
    (res = true →
       s' = logs (cells_before 1 0 ≫= compare_reads currentGen nextGen)
              (at_loop blinker block [])) ∧
    (1 ≤ 0 → res = true ∧ s' = at_loop blinker block []).
Proof.
  apply (X3_generationsAreIdentical_rows currentGen nextGen 1 (at_loop blinker block [])).
  - vm_compute. discriminate.
  - exact blinker_wf.
  - exact block_wf.
Defined.

(** X4: with [r] above [ROW], [generationsAreIdentical] on two boards that
    hold equal values everywhere goes on to the row [ROW], which is not a row
    of the arrays: the run is a fault.  On boards that differ somewhere it
    returns false before it gets there. *)
Theorem X4_generationsAreIdentical_overrun board1 board2 r s :
  ROW < r →
  wf_board (sel s board1) → wf_board (sel s board2) →
  ((∀ x y, in_bounds x y →
      cell_get (sel s board1) x y = cell_get (sel s board2) x y) →
   generationsAreIdentical board1 board2 r s = None) ∧
  ((∃ x y, in_bounds x y ∧
      cell_get (sel s board1) x y ≠ cell_get (sel s board2) x y) →
   ∃ s', generationsAreIdentical board1 board2 r s = Some (false, s')).
Proof.
  intros Hr Hwf1 Hwf2.
  destruct (compare_rows_run board1 board2 ROW s) as (ro & s' & E & Hro); [done..|].
  unfold generationsAreIdentical, bind, for_ret in *.
  assert (HROW : 0 ≤ ROW) by done.
  replace (Z.to_nat (r - 0)) with (Z.to_nat (ROW - 0) + S (Z.to_nat (r - ROW - 1)))%nat
    by lia.
  rewrite for_ret_from_split, E.
  destruct ro as [v|].
  - destruct Hro as (-> & i & j & _ & (Hin & Hne & _) & _). split.
    + intros Hall. destruct Hne. by apply Hall.
    + intros _. by exists s'.
  - destruct Hro as [Hagree Hs']. split.
    + intros _. cbn [for_ret_from]. unfold bind.
      replace (Z.to_nat (COL - 0)) with 4%nat by done. cbn [for_ret_from]. unfold bind.
      rewrite load_outside; [done| |].
      * by rewrite Hs', sel_logs.
      * unfold in_bounds. cbn. lia.
    + intros (x & y & Hxy & Hne). destruct Hne.
      by apply Hagree, before_end.
Qed.

Lemma X4_generationsAreIdentical_overrun_witness :
  ((∀ x y, in_bounds x y → cell_get block x y = cell_get block x y) →
   generationsAreIdentical currentGen nextGen 6 (at_loop block block []) = None) ∧
  ((∃ x y, in_bounds x y ∧ cell_get block x y ≠ cell_get block x y) →
   ∃ s', generationsAreIdentical currentGen nextGen 6 (at_loop block block [])
         = Some (false, s')).
Proof.
  apply (X4_generationsAreIdentical_overrun currentGen nextGen 6 (at_loop block block [])).
  - vm_compute. reflexivity.
  - exact block_wf.
  - exact block_wf.
Defined.

(** ** [makeCurrentGenSameAsNextGen] on the first [r] rows *)

Lemma copy_rows_run board1 board2 r s :
  board1 ≠ board2 → 0 ≤ r ≤ ROW →
  wf_board (sel s board1) → wf_board (sel s board2) →
  ∃ s', makeCurrentGenSameAsNextGen board1 board2 r s = Some (tt, s') ∧
        wf_board (sel s' board1) ∧ wf_board (sel s' board2) ∧
        same_io s s' ∧
        trace s' = trace s ++
          (cells_before r 0 ≫= copy_events board1 board2 (sel s board2)) ∧
        ∀ x y, in_bounds x y →
          (x < r →
             cell_get (sel s' board1) x y = cell_get (sel s board2) x y ∧
             cell_get (sel s' board2) x y = Some 0) ∧
          (r ≤ x →
             cell_get (sel s' board1) x y = cell_get (sel s board1) x y ∧
             cell_get (sel s' board2) x y = cell_get (sel s board2) x y).
Proof.
  intros Hne Hr Hwf1 Hwf2.
  destruct (for_rows_inv
    (λ i j s',
       wf_board (sel s' board1) ∧ wf_board (sel s' board2) ∧ same_io s s' ∧
       trace s' = trace s ++
         (cells_before i j ≫= copy_events board1 board2 (sel s board2)) ∧
       ∀ x y, in_bounds x y →
         (before i j x y →
            cell_get (sel s' board1) x y = cell_get (sel s board2) x y ∧
            cell_get (sel s' board2) x y = Some 0) ∧
         (¬ before i j x y →
            cell_get (sel s' board1) x y = cell_get (sel s board1) x y ∧
            cell_get (sel s' board2) x y = cell_get (sel s board2) x y))
    (λ i j, v <- load board2 i j ;; store board1 i j v ;; store board2 i j 0) r s)
    as (s' & E & W1 & W2 & IO & T & Hcells); [done| | | |].
  - split; [done|]. split; [done|]. split; [apply same_io_refl|].
    split; [by rewrite app_nil_r|].
    intros x y Hxy. split; [|done]. intros Hb. by apply before_start in Hb.
  - intros i j s1 Hi Hj (W1 & W2 & IO & T & Hcells).
    assert (Hin : in_bounds i j) by (unfold in_bounds; lia).
    destruct (load_in_bounds board2 i j s1 W2 Hin) as (v & Hv & E1).
    assert (Hv' : cell_get (sel s board2) i j = Some v).
    { rewrite <- Hv. symmetry. apply (Hcells i j Hin). unfold before. lia. }
    destruct (store_in_bounds board1 i j v (log (CellRead board2 i j) s1))
      as (b1 & E2 & Wb1 & Vb1 & Ob1); [by rewrite sel_log|done|].
    rewrite sel_log in Ob1.
    destruct (store_in_bounds board2 i j 0
      (log (CellWrite board1 i j v) (upd (log (CellRead board2 i j) s1) board1 b1)))
      as (b2 & E3 & Wb2 & Vb2 & Ob2);
      [by rewrite sel_log, sel_upd_ne, sel_log|done|].
    rewrite sel_log, sel_upd_ne, sel_log in Ob2 by done.
    rewrite (bind_run _ _ _ _ _ E1), (bind_run _ _ _ _ _ E2), E3.
    eexists. split; [done|].
    set (s3 := log _ (upd _ board2 b2)).
    assert (S2 : sel s3 board2 = b2) by (by subst s3; rewrite sel_log, sel_upd_eq).
    assert (S1 : sel s3 board1 = b1).
    { subst s3. by rewrite sel_log, sel_upd_ne, sel_log, sel_upd_eq. }
    assert (T3 : trace s3 = trace s1 ++ copy_events board1 board2 (sel s board2) (i, j)).
    { subst s3. unfold copy_events. cbn [fst snd]. unfold cell. rewrite Hv'.
      cbn [default from_option id].
      unfold log, logs. cbn [trace]. rewrite !trace_upd. cbn [trace].
      by rewrite <- !app_assoc. }
    rewrite S1, S2. split; [done|]. split; [done|]. split.
    { eapply same_io_trans; [exact IO|]. by destruct board1, board2. }
    split.
    { rewrite T3, T, cells_before_next, bind_app, bind_singleton by lia.
      by rewrite <- app_assoc. }
    intros x y Hxy. destruct (Hcells x y Hxy) as [Hold Hnew].
    destruct (decide ((x, y) = (i, j))) as [[= -> ->]|Hxy'].
    + split.
      * intros _. rewrite Vb1, Vb2. split; [|done]. by rewrite Hv'.
      * intros Hnb. exfalso. apply Hnb. apply before_next. by right.
    + rewrite Ob1, Ob2 by done. split.
      * intros Hb. apply before_next in Hb as [Hb|Hb]; [by apply Hold|done].
      * intros Hnb. apply Hnew. intros Hb. apply Hnb, before_next. by left.
  - intros i s1 Hi (W1 & W2 & IO & T & Hcells). repeat (split; [done|]).
    split; [by rewrite <- cells_before_row by lia|].
    intros x y Hxy. destruct (Hcells x y Hxy) as [Hold Hnew]. split.
    + intros Hb. by apply Hold, before_row.
    + intros Hnb. apply Hnew. unfold before, in_bounds in *. lia.
  - exists s'. repeat (split; [done|]).
    intros x y Hxy. destruct (Hcells x y Hxy) as [Hold Hnew]. split.
    + intros Hx. apply Hold. unfold before. lia.
    + intros Hx. apply Hnew. unfold before, in_bounds in *. lia.
Qed.

(** X5: for two arrays and [r] from 0 to [ROW],
    [makeCurrentGenSameAsNextGen] works on the first [r] rows only: there
    each cell of [board1] ends with what [board2] held and each cell of
    [board2] with 0, while the rows from [r] on are as they were in both
    boards.  Cell after cell in row-major order it reads [board2], writes
    the value to [board1] and writes 0 to [board2], and makes no other
    access. *)
Theorem X5_makeCurrentGenSameAsNextGen_rows board1 board2 r s :
  board1 ≠ board2 → 0 ≤ r ≤ ROW →
  wf_board (sel s board1) → wf_board (sel s board2) →
  ∃ s', makeCurrentGenSameAsNextGen board1 board2 r s = Some (tt, s') ∧
        trace s' = trace s ++
          (cells_before r 0 ≫= copy_events board1 board2 (sel s board2)) ∧
        ∀ x y, in_bounds x y →
          (x < r →
             cell_get (sel s' board1) x y = cell_get (sel s board2) x y ∧
             cell_get (sel s' board2) x y = Some 0) ∧
          (r ≤ x →
             cell_get (sel s' board1) x y = cell_get (sel s board1) x y ∧
             cell_get (sel s' board2) x y = cell_get (sel s board2) x y).
Proof.
  intros Hne Hr Hwf1 Hwf2.
  destruct (copy_rows_run board1 board2 r s Hne Hr Hwf1 Hwf2)
    as (s' & E & _ & _ & _ & T & Hcells).
  by exists s'.
Qed.

Lemma X5_makeCurrentGenSameAsNextGen_rows_witness :
  ∃ s', makeCurrentGenSameAsNextGen currentGen nextGen 2 (at_loop blinker block [])
        = Some (tt, s') ∧
        trace s' = [] ++ (cells_before 2 0 ≫= copy_events currentGen nextGen block) ∧
        ∀ x y, in_bounds x y →
          (x < 2 →
             cell_get (sel s' currentGen) x y = cell_get block x y ∧
             cell_get (sel s' nextGen) x y = Some 0) ∧
          (2 ≤ x →
             cell_get (sel s' currentGen) x y = cell_get blinker x y ∧
             cell_get (sel s' nextGen) x y = cell_get block x y).
Proof.
  apply (X5_makeCurrentGenSameAsNextGen_rows currentGen nextGen 2
           (at_loop blinker block [])).
  - discriminate.
  - vm_compute. split; discriminate.
  - exact blinker_wf.
  - exact block_wf.
Defined.

Lemma clear_rows_run board r s :
  0 ≤ r ≤ ROW → wf_board (sel s board) →
  ∃ s', makeCurrentGenSameAsNextGen board board r s = Some (tt, s') ∧
        wf_board (sel s' board) ∧
        ∀ x y, in_bounds x y →
          (x < r → cell_get (sel s' board) x y = Some 0) ∧
          (r ≤ x → cell_get (sel s' board) x y = cell_get (sel s board) x y).
Proof.
  intros Hr Hwf.
  destruct (for_rows_inv
    (λ i j s',
       wf_board (sel s' board) ∧
       ∀ x y, in_bounds x y →
         (before i j x y → cell_get (sel s' board) x y = Some 0) ∧
         (¬ before i j x y →
            cell_get (sel s' board) x y = cell_get (sel s board) x y))
    (λ i j, v <- load board i j ;; store board i j v ;; store board i j 0) r s)
    as (s' & E & W & Hcells); [done| | | |].
  - split; [done|]. intros x y Hxy. split; [|done].
    intros Hb. by apply before_start in Hb.
  - intros i j s1 Hi Hj (W & Hcells).
    assert (Hin : in_bounds i j) by (unfold in_bounds; lia).
    destruct (load_in_bounds board i j s1 W Hin) as (v & Hv & E1).
    destruct (store_in_bounds board i j v (log (CellRead board i j) s1))
      as (b1 & E2 & Wb1 & Vb1 & Ob1); [by rewrite sel_log|done|].
    rewrite sel_log in Ob1.
    destruct (store_in_bounds board i j 0
      (log (CellWrite board i j v) (upd (log (CellRead board i j) s1) board b1)))
      as (b2 & E3 & Wb2 & Vb2 & Ob2); [by rewrite sel_log, sel_upd_eq|done|].
    rewrite sel_log, sel_upd_eq in Ob2.
    rewrite (bind_run _ _ _ _ _ E1), (bind_run _ _ _ _ _ E2), E3.
    eexists. split; [done|]. rewrite sel_log, sel_upd_eq. split; [done|].
    intros x y Hxy. destruct (Hcells x y Hxy) as [Hold Hnew].
    destruct (decide ((x, y) = (i, j))) as [[= -> ->]|Hxy'].
    + split; [done|]. intros Hnb. exfalso. apply Hnb, before_next. by right.
    + rewrite Ob2, Ob1 by done. split.
      * intros Hb. apply before_next in Hb as [Hb|Hb]; [by apply Hold|done].
      * intros Hnb. apply Hnew. intros Hb. apply Hnb, before_next. by left.
  - intros i s1 Hi (W & Hcells). split; [done|].
    intros x y Hxy. destruct (Hcells x y Hxy) as [Hold Hnew]. split.
    + intros Hb. by apply Hold, before_row.
    + intros Hnb. apply Hnew. unfold before, in_bounds in *. lia.
  - exists s'. repeat (split; [done|]).
    intros x y Hxy. destruct (Hcells x y Hxy) as [Hold Hnew]. split.
    + intros Hx. apply Hold. unfold before. lia.
    + intros Hx. apply Hnew. unfold before, in_bounds in *. lia.
Qed.

(** X6: given the same array for both parameters,
    [makeCurrentGenSameAsNextGen] copies each cell onto itself and then
    clears it: the first [r] rows of the array end all 0, the other rows are
    as they were. *)
Theorem X6_makeCurrentGenSameAsNextGen_same_array board r s :
  0 ≤ r ≤ ROW → wf_board (sel s board) →
  ∃ s', makeCurrentGenSameAsNextGen board board r s = Some (tt, s') ∧
        ∀ x y, in_bounds x y →
          (x < r → cell_get (sel s' board) x y = Some 0) ∧
          (r ≤ x → cell_get (sel s' board) x y = cell_get (sel s board) x y).
Proof.
  intros Hr Hwf.
  destruct (clear_rows_run board r s Hr Hwf) as (s' & E & _ & Hcells).
  by exists s'.
Qed.

Lemma X6_makeCurrentGenSameAsNextGen_same_array_witness :
  ∃ s', makeCurrentGenSameAsNextGen currentGen currentGen 2 (at_loop blinker block [])
        = Some (tt, s') ∧
        ∀ x y, in_bounds x y →
          (x < 2 → cell_get (sel s' currentGen) x y = Some 0) ∧
          (2 ≤ x → cell_get (sel s' currentGen) x y = cell_get blinker x y).
Proof.
  apply (X6_makeCurrentGenSameAsNextGen_same_array currentGen 2
           (at_loop blinker block [])).
  - vm_compute. split; discriminate.
  - exact blinker_wf.
Defined.

(** X7: with [r] above [ROW], [makeCurrentGenSameAsNextGen] goes on to the
    row [ROW], which is not a row of the arrays: the run is a fault, whatever
    the boards hold. *)
Theorem X7_makeCurrentGenSameAsNextGen_overrun board1 board2 r s :
  ROW < r →
  wf_board (sel s board1) → wf_board (sel s board2) →
  makeCurrentGenSameAsNextGen board1 board2 r s = None.
Proof.
  intros Hr Hwf1 Hwf2.
  assert (Hrows : ∃ s', makeCurrentGenSameAsNextGen board1 board2 ROW s = Some (tt, s') ∧
                        wf_board (sel s' board2)).
  { destruct (decide (board1 = board2)) as [->|Hne].
    - destruct (clear_rows_run board2 ROW s) as (s' & E & W & _); [done..|].
      by exists s'.
    - destruct (copy_rows_run board1 board2 ROW s) as (s' & E & _ & W & _); [done..|].
      by exists s'. }
  destruct Hrows as (s' & E & W).
  unfold makeCurrentGenSameAsNextGen, for_, for_fold in *.
  assert (HROW : 0 ≤ ROW) by done.
  replace (Z.to_nat (r - 0)) with (Z.to_nat (ROW - 0) + S (Z.to_nat (r - ROW - 1)))%nat
    by lia.
  rewrite for_fold_from_split, E.
  cbn [for_fold_from]. unfold bind.
  replace (Z.to_nat (COL - 0)) with 4%nat by done. cbn [for_fold_from]. unfold bind.
  rewrite load_outside; [done|done|]. unfold in_bounds. cbn. lia.
Qed.

Lemma X7_makeCurrentGenSameAsNextGen_overrun_witness :
  makeCurrentGenSameAsNextGen currentGen nextGen 6 (at_loop blinker block []) = None.
Proof.
  apply (X7_makeCurrentGenSameAsNextGen_overrun currentGen nextGen 6
           (at_loop blinker block [])).
  - vm_compute. reflexivity.
  - exact blinker_wf.
  - exact block_wf.
Defined.

(** ** The values of the first generation *)

(** X8: the seeding loops take [ROW * COL] values from [rand()], one per
    cell in row-major order, and leave in the cell [(x, y)] of [currentGen]
    the remainder by 2 of the value number [x * COL + y] of those; [nextGen]
    is not touched. *)
Theorem X8_randomSeed_values s :
  wf_board (sel s currentGen) →
  ∃ s', randomSeed s = Some (tt, s') ∧
        rand_calls s' = (rand_calls s + Z.to_nat (ROW * COL))%nat ∧
        rand_source s' = rand_source s ∧
        sel s' nextGen = sel s nextGen ∧
        ∀ x y, in_bounds x y →
          cell_get (sel s' currentGen) x y =
            Some (Z.of_N (rand_source s (rand_calls s + Z.to_nat (x * COL + y))%nat)
                  `rem` 2).
Proof.
  intros Hwf.
  destruct (for_cells_inv
    (λ i j s',
       wf_board (sel s' currentGen) ∧
       sel s' nextGen = sel s nextGen ∧
       rand_source s' = rand_source s ∧
       rand_calls s' = (rand_calls s + Z.to_nat (i * COL + j))%nat ∧
       ∀ x y, in_bounds x y → before i j x y →
         cell_get (sel s' currentGen) x y =
           Some (Z.of_N (rand_source s (rand_calls s + Z.to_nat (x * COL + y))%nat)
                 `rem` 2))
    (λ i j, v <- rand ;; store currentGen i j (Z.rem v 2)) s)
    as (s' & E & W & N & R & C & V).
  - split; [done|]. split; [done|]. split; [done|]. split; [cbn; lia|].
    intros x y Hxy Hb. by apply before_start in Hb.
  - intros i j s1 Hin (W1 & N1 & R1 & C1 & V1).
    set (v := rand_source s1 (rand_calls s1)).
    set (s2 := State (mem_currentGen s1) (mem_nextGen s1) (generationCounter s1)
                 (rand_source s1) (S (rand_calls s1)) (stdin s1) (trace s1)).
    destruct (store_in_bounds currentGen i j (Z.rem (Z.of_N v) 2) s2 W1 Hin)
      as (b & E2 & Wb & Vb & Ob).
    exists (log (CellWrite currentGen i j (Z.rem (Z.of_N v) 2)) (upd s2 currentGen b)).
    split; [exact E2|]. split; [done|]. split; [done|]. split; [done|]. split.
    + cbn [rand_calls log logs upd s2]. rewrite C1.
      unfold in_bounds, COL in *. lia.
    + intros x y Hxy Hb. cbn [sel log logs upd mem_currentGen].
      apply before_next in Hb as [Hb|[= -> ->]].
      * rewrite Ob; [by apply V1|].
        intros [= -> ->]. unfold before in Hb. lia.
      * rewrite Vb. subst v. by rewrite R1, C1.
  - intros i s1 Hi (W1 & N1 & R1 & C1 & V1). repeat (split; [done|]). split.
    + rewrite C1. f_equal. lia.
    + intros x y Hxy Hb. apply V1; [done|]. by apply before_row.
  - exists s'. split; [done|]. split; [by rewrite C, Z.add_0_r|].
    repeat (split; [done|]). intros x y Hxy. apply V; [done|]. by apply before_end.
Qed.

Lemma X8_randomSeed_values_witness :
  ∃ s', randomSeed (at_loop stale stale []) = Some (tt, s') ∧
        rand_calls s' = (20 + Z.to_nat (ROW * COL))%nat ∧
        rand_source s' = (λ k, N.of_nat (3 * k + 1)) ∧
        sel s' nextGen = stale ∧
        ∀ x y, in_bounds x y →
          cell_get (sel s' currentGen) x y =
            Some (Z.of_N (N.of_nat (3 * (20 + Z.to_nat (x * COL + y)) + 1)) `rem` 2).
Proof.
  exact (X8_randomSeed_values (at_loop stale stale []) stale_wf).
Defined.

(** ** The console *)

Lemma console_app tr1 tr2 : console (tr1 ++ tr2) = console tr1 ++ console tr2.
Proof. apply filter_app. Qed.

Lemma console_quiet (P : event → Prop) tr :
  (∀ e, P e → ¬ is_console e) → Forall P tr → console tr = [].
Proof.
  intros HP Htr. induction Htr as [|e tr He _ IH]; [done|].
  unfold console. rewrite filter_cons_False by by apply HP. exact IH.
Qed.

Lemma console_next_events tr : Forall next_event tr → console tr = [].
Proof. apply console_quiet. intros e He Hc. by destruct e. Qed.

Lemma console_compare_reads board1 board2 ps :
  console (ps ≫= compare_reads board1 board2) = [].
Proof.
  induction ps as [|p ps IH]; [done|].
  by rewrite bind_cons, console_app, IH.
Qed.

Lemma console_copy_events board1 board2 b2 ps :
  console (ps ≫= copy_events board1 board2 b2) = [].
Proof.
  induction ps as [|p ps IH]; [done|].
  by rewrite bind_cons, console_app, IH.
Qed.

Lemma trace_logs es s : trace (logs es s) = trace s ++ es.
Proof. done. Qed.

(** Lines 95-106 print the still-life message when they end the run in
    [Stable], and nothing otherwise. *)
Lemma after_prompt_console c s :
  wf_board (sel s currentGen) → wf_board (sel s nextGen) →
  ∃ r s',
    after_prompt c s = Some (r, s') ∧
    console (trace s') = console (trace s) ++ still_life_msg r.
Proof.
  intros Hcur Hnxt. unfold after_prompt.
  destruct ((c =? char_q) || (c =? char_Q)).
  { exists (Some UserQuit), s. split; [done|]. by rewrite app_nil_r. }
  destruct (generationsAreIdentical_run currentGen nextGen s Hcur Hnxt)
    as (res & s1 & E & Hres).
  rewrite (bind_run _ _ _ _ _ E). destruct res.
  - destruct Hres as [_ ->]. eexists (Some Stable), _. split; [done|].
    unfold log. rewrite logs_logs, trace_logs, !console_app.
    by rewrite console_compare_reads.
  - destruct Hres as (i & j & _ & ->).
    destruct (copy_rows_run currentGen nextGen ROW
      (logs ((cells_before i j ++ [(i, j)]) ≫= compare_reads currentGen nextGen) s))
      as (s' & E' & _ & _ & _ & T & _); [done..|].
    rewrite (bind_run _ _ _ _ _ E').
    exists None, s'. split; [done|].
    rewrite T, trace_logs, !console_app.
    by rewrite console_compare_reads, console_copy_events, !app_nil_r.
Qed.

Lemma generation_step_console s :
  wf_board (sel s currentGen) → wf_board (sel s nextGen) →
  ∃ r s',
    generation_step s = Some (r, s') ∧
    console (trace s') =
      console (trace s) ++
      [Printed (generationCounter s) (next_grid (sel s currentGen)); Prompted] ++
      still_life_msg r.
Proof.
  intros Hcur Hnxt.
  destruct (computeNextGeneration_run s Hcur Hnxt)
    as (s1 & E1 & C1 & N1 & (G1 & _) & new & T1 & Hnew).
  unfold generation_step. rewrite (bind_run _ _ _ _ _ E1).
  rewrite <- G1. clear E1 G1.
  apply console_next_events in Hnew.
  set (G := sel s currentGen) in *. clearbody G.
  destruct s1 as [cur1 nxt1 gc1 rs1 rc1 in1 tr1].
  cbn [sel stdin generationCounter mem_currentGen mem_nextGen trace] in *.
  subst cur1 nxt1 tr1.
  unfold generationCounter_post_incr, printBoard, cout, cin_get, bind at 1 2 3 4.
  cbn [stdin log logs sel mem_currentGen mem_nextGen generationCounter
       rand_source rand_calls trace].
  destruct in1 as [|c rest];
    match goal with
    | |- context [after_prompt ?c ?s2] =>
        destruct (after_prompt_console c s2) as (r & s' & E & T);
          [done|apply next_grid_wf|]
    end.
  all: exists r, s'; split; [done|]; rewrite T.
  all: cbn [trace log logs]; rewrite !console_app, Hnew, app_nil_r.
  all: by rewrite <- !app_assoc.
Qed.

(** ** Runs of the loop *)

Lemma pass_console_shift n G m :
  seq 0 (S m) ≫= pass_console n G =
  pass_console n G 0 ++ (seq 0 m ≫= pass_console (int_wrap (n + 1)) (next_grid G)).
Proof.
  cbn [seq]. rewrite bind_cons. f_equal.
  rewrite <- fmap_S_seq, list_fmap_bind. apply list_bind_ext; [|done].
  intros i. unfold pass_console, compose.
  rewrite (Nat.iter_succ_r (S i)), int_wrap_add.
  apply (f_equal (λ e, [e; Prompted])), (f_equal2 Printed); [|done].
  apply (f_equal int_wrap). lia.
Qed.

Lemma pass_console_0 n G :
  is_int n → pass_console n G 0 = [Printed n (next_grid G); Prompted].
Proof.
  intros Hn. unfold pass_console. cbn [Nat.iter Z.of_nat].
  by rewrite Z.add_0_r, int_wrap_id.
Qed.

Lemma pass_console_one n G :
  is_int n → seq 0 1 ≫= pass_console n G = [Printed n (next_grid G); Prompted].
Proof. intros Hn. cbn [seq]. by rewrite bind_singleton, pass_console_0. Qed.

Lemma drop_tail {A} (l : list A) m : drop m (tail l) = drop (S m) l.
Proof. destruct l; [|done]. cbn [tail]. by rewrite !drop_nil. Qed.

(** The whole of a run of the loop: the passes made, what they consumed and
    printed, and the boards at the end. *)
Lemma generations_passes fuel : ∀ s,
  wf_board (sel s currentGen) → wf_board (sel s nextGen) →
  ∃ r s' (m : nat),
    generations fuel s = Some (r, s') ∧
    (m ≤ fuel)%nat ∧
    (is_int (generationCounter s) →
       generationCounter s' = int_wrap (generationCounter s + Z.of_nat m)) ∧
    stdin s' = drop m (stdin s) ∧
    (is_int (generationCounter s) →
       console (trace s') =
         console (trace s) ++
         (seq 0 m ≫= pass_console (generationCounter s) (sel s currentGen)) ++
         still_life_msg r) ∧
    (∀ i c, (S i < m)%nat → stdin s !! i = Some c → is_quit c = false) ∧
    (∀ i, (S i < m)%nat →
       Nat.iter (S i) next_grid (sel s currentGen) ≠ Nat.iter i next_grid (sel s currentGen)) ∧
    match r with
    | None =>
        m = fuel ∧
        sel s' currentGen = Nat.iter m next_grid (sel s currentGen) ∧
        (∀ c, m ≠ O → stdin s !! pred m = Some c → is_quit c = false) ∧
        (m ≠ O →
           Nat.iter m next_grid (sel s currentGen)
           ≠ Nat.iter (pred m) next_grid (sel s currentGen))
    | Some o =>
        m ≠ O ∧
        sel s' currentGen = Nat.iter (pred m) next_grid (sel s currentGen) ∧
        sel s' nextGen = Nat.iter m next_grid (sel s currentGen) ∧
        match o with
        | UserQuit => ∃ c, stdin s !! pred m = Some c ∧ is_quit c = true
        | Stable =>
            (∀ c, stdin s !! pred m = Some c → is_quit c = false) ∧
            Nat.iter m next_grid (sel s currentGen)
            = Nat.iter (pred m) next_grid (sel s currentGen)
        end
    end.
Proof.
  induction fuel as [|fuel IH]; intros s Hcur Hnxt.
  - exists None, s, O. split; [done|]. split; [done|].
    split; [intros Hn; cbn [Z.of_nat]; by rewrite Z.add_0_r, int_wrap_id|].
    split; [done|]. split; [by rewrite !app_nil_r|].
    split; [intros; lia|]. split; [intros; lia|]. by repeat split.
  - destruct (generation_step_run s Hcur Hnxt) as (r1 & s1 & E1 & G1 & I1 & Hr1).
    destruct (generation_step_console s Hcur Hnxt) as (r1' & s1' & E1' & T1).
    rewrite E1 in E1'. injection E1' as <- <-.
    cbn [generations]. rewrite (bind_run _ _ _ _ _ E1).
    set (G := sel s currentGen) in *.
    assert (Hchar : ∀ c, stdin s !! O = Some c → next_char s = c).
    { intros c Hc. unfold next_char.
      destruct (stdin s) as [|c' rest]; cbn in Hc; [discriminate|by injection Hc]. }
    destruct (is_quit (next_char s)) eqn:Hq; [|destruct (decide (next_grid G = G)) as [Hst|Hst]].
    + (* the user quits *)
      destruct Hr1 as (-> & C1 & N1).
      exists (Some UserQuit), s1, 1%nat.
      split; [done|]. split; [lia|]. split; [done|].
      split; [by rewrite I1; destruct (stdin s)|].
      split; [by intros Hn; rewrite T1, pass_console_one|].
      split; [intros; lia|]. split; [intros; lia|].
      split; [done|]. split; [done|]. split; [done|].
      unfold next_char in Hq. destruct (stdin s) as [|c rest]; [done|]. by exists c.
    + (* a still life *)
      destruct Hr1 as (-> & C1 & N1).
      exists (Some Stable), s1, 1%nat.
      split; [done|]. split; [lia|]. split; [done|].
      split; [by rewrite I1; destruct (stdin s)|].
      split; [by intros Hn; rewrite T1, pass_console_one|].
      split; [intros; lia|]. split; [intros; lia|].
      split; [done|]. split; [done|]. split; [done|]. split; [|done].
      intros c Hc. by rewrite <- (Hchar c Hc).
    + (* the loop goes on *)
      destruct Hr1 as (-> & C1 & N1).
      destruct (IH s1) as (r & s' & m & E & Hm & Gm & Im & Tm & Qm & Fm & Hr);
        [rewrite C1; apply next_grid_wf|rewrite N1; apply dead_grid_wf|].
      rewrite C1 in *. rewrite I1 in *.
      specialize (Gm (eq_ind_r is_int (int_wrap_is_int _) G1)).
      specialize (Tm (eq_ind_r is_int (int_wrap_is_int _) G1)).
      rewrite G1 in *.
      assert (Hnth : ∀ i, tail (stdin s) !! i = stdin s !! S i).
      { intros i. by destruct (stdin s). }
      assert (Hiter : ∀ i, Nat.iter i next_grid (next_grid G) = Nat.iter (S i) next_grid G).
      { intros i. by rewrite Nat.iter_succ_r. }
      assert (Hq0 : ∀ c, stdin s !! O = Some c → is_quit c = false).
      { intros c Hc. by rewrite <- (Hchar c Hc). }
      exists r, s', (S m).
      split; [done|]. split; [lia|].
      split.
      { intros _. rewrite Gm, int_wrap_add. apply (f_equal int_wrap). lia. }
      split; [by rewrite Im, drop_tail|].
      split.
      { intros Hn. rewrite Tm, T1, pass_console_shift, pass_console_0 by done.
        cbn [still_life_msg]. rewrite app_nil_r. by rewrite <- !app_assoc. }
      split.
      { intros [|i] c Hi Hc; [by apply Hq0|].
        apply (Qm i c); [lia|]. by rewrite Hnth. }
      split.
      { intros [|i] Hi; [done|]. rewrite <- !Hiter. apply Fm. lia. }
      destruct r as [o|].
      * destruct Hr as (Hm0 & Cm & Nm & Ho).
        destruct m as [|m]; [done|]. cbn [pred] in *.
        rewrite !Hiter in *. rewrite Hnth in Ho.
        split; [done|]. split; [done|]. split; [done|]. exact Ho.
      * destruct Hr as (Hmf & Cm & Qm' & Fm').
        split; [by rewrite Hmf|]. rewrite Hiter in Cm. split; [done|].
        destruct m as [|m].
        -- split; [|done]. intros c _ Hc. by apply Hq0.
        -- cbn [pred] in *. rewrite Hnth in Qm'. split.
           ++ intros c _. by apply Qm'.
           ++ intros _. rewrite <- !Hiter. by apply Fm'.
Qed.

(** X9: the next-generation loops leave in [nextGen] the board [next_grid]
    gives for [currentGen], whatever the two arrays held before: its cell
    [(x, y)] is [next_state] of the value of that cell of [currentGen] and of
    the number of cells around it that are on the board and hold 1. *)
Theorem X9_next_generation_board s :
  wf_board (sel s currentGen) → wf_board (sel s nextGen) →
  ∃ s', computeNextGeneration s = Some (tt, s') ∧
        sel s' nextGen = next_grid (sel s currentGen) ∧
        ∀ x y v, in_bounds x y → cell_get (sel s currentGen) x y = Some v →
          cell_get (sel s' nextGen) x y =
            Some (next_state v (live_neighbors (sel s currentGen) x y)).
Proof.
  intros Hcur Hnxt.
  destruct (computeNextGeneration_run s Hcur Hnxt) as (s' & E & _ & N & _).
  exists s'. split; [done|]. split; [done|].
  intros x y v Hxy Hv. rewrite N, next_grid_cell by done.
  unfold next_value, cell. by rewrite Hv.
Qed.

Lemma X9_next_generation_board_witness :
  ∃ s', computeNextGeneration (at_loop stale blinker []) = Some (tt, s') ∧
        sel s' nextGen = next_grid stale ∧
        ∀ x y v, in_bounds x y → cell_get stale x y = Some v →
          cell_get (sel s' nextGen) x y = Some (next_state v (live_neighbors stale x y)).
Proof.
  exact (X9_next_generation_board (at_loop stale blinker []) stale_wf blinker_wf).
Defined.

(** X10: a pass of the loop prints the generation it computed under the
    value the counter had before the pass, then the prompt, and after them
    the still-life message if and only if it ends the run in [Stable]; it
    takes one character from the input (none when the input is at its end)
    and increments the counter, whichever way it ends: the counter is an
    [int], one higher than before when it was below [INT_MAX], and [INT_MIN]
    after [INT_MAX]. *)
Theorem X10_generation_step_console s :
  wf_board (sel s currentGen) → wf_board (sel s nextGen) →
  ∃ s1 r s',
    computeNextGeneration s = Some (tt, s1) ∧
    generation_step s = Some (r, s') ∧
    console (trace s') =
      console (trace s) ++
      [Printed (generationCounter s) (sel s1 nextGen); Prompted] ++
      still_life_msg r ∧
    stdin s' = tail (stdin s) ∧
    generationCounter s' = int_wrap (generationCounter s + 1) ∧
    (INT_MIN ≤ generationCounter s < INT_MAX →
       generationCounter s' = generationCounter s + 1) ∧
    (generationCounter s = INT_MAX → generationCounter s' = INT_MIN).
Proof.
  intros Hcur Hnxt.
  destruct (computeNextGeneration_run s Hcur Hnxt) as (s1 & E1 & _ & N1 & _).
  destruct (generation_step_run s Hcur Hnxt) as (r & s' & E & G & I & _).
  destruct (generation_step_console s Hcur Hnxt) as (r' & s'' & E' & T).
  rewrite E in E'. injection E' as <- <-.
  exists s1, r, s'. split; [done|]. split; [done|].
  split; [by rewrite T, N1|]. split; [done|]. split; [done|]. split.
  - intros Hn. by rewrite G, int_wrap_succ.
  - intros Hn. rewrite G, Hn. by vm_compute.
Qed.

Lemma X10_generation_step_console_witness :
  ∃ s1 r s',
    computeNextGeneration (at_loop block stale []) = Some (tt, s1) ∧
    generation_step (at_loop block stale []) = Some (r, s') ∧
    console (trace s') =
      console [] ++
      [Printed 2 (sel s1 nextGen); Prompted] ++
      still_life_msg r ∧
    stdin s' = tail [] ∧
    generationCounter s' = int_wrap (2 + 1) ∧
    (INT_MIN ≤ 2 < INT_MAX → generationCounter s' = 2 + 1) ∧
    (2 = INT_MAX → generationCounter s' = INT_MIN).
Proof.
  exact (X10_generation_step_console (at_loop block stale []) block_wf stale_wf).
Defined.

(** The counter at the end of the range of [int]: the pass prints under
    [INT_MAX] and leaves the counter at [INT_MIN]. *)
Example the_counter_wraps_around :
  (λ p, (console (trace p.2), generationCounter p.2))
    <$> generation_step (State block stale INT_MAX (λ _, 0%N) 0 [char_q] []) =
  Some ([Printed 2147483647 block; Prompted], -2147483648).
Proof. vm_compute. reflexivity. Qed.

Lemma generations_keeps_running k s :
  wf_board (sel s currentGen) → wf_board (sel s nextGen) →
  (∀ i c, (i < k)%nat → stdin s !! i = Some c → is_quit c = false) →
  (∀ i, (i < k)%nat →
     Nat.iter (S i) next_grid (sel s currentGen) ≠ Nat.iter i next_grid (sel s currentGen)) →
  ∃ s', generations k s = Some (None, s') ∧
        sel s' currentGen = Nat.iter k next_grid (sel s currentGen) ∧
        (is_int (generationCounter s) →
           generationCounter s' = int_wrap (generationCounter s + Z.of_nat k)) ∧
        stdin s' = drop k (stdin s).
Proof.
  intros Hcur Hnxt Hq Hf.
  destruct (generations_passes k s Hcur Hnxt)
    as (r & s' & m & E & Hm & G & I & _ & _ & _ & Hr).
  destruct r as [[]|].
  - destruct Hr as (Hm0 & _ & _ & _ & Hst). destruct m as [|p]; [done|].
    cbn [pred] in Hst. destruct (Hf p); [lia|done].
  - destruct Hr as (Hm0 & _ & _ & c & Hc & Hcq). destruct m as [|p]; [done|].
    cbn [pred] in Hc. rewrite (Hq p c) in Hcq; [done|lia|done].
  - destruct Hr as (-> & C & _). by exists s'.
Qed.

(** X11: as long as the characters typed are not [q] or [Q] and no
    generation equals the one before it, the loop goes on: after [k] such
    passes [currentGen] holds generation [k] after the board it started
    from, the counter was incremented [k] times (it is an [int]: [k] higher
    as long as that does not pass [INT_MAX], wrapped around otherwise) and
    [k] characters of the input are gone.  The end of the input counts as a
    character that is not [q]. *)
Theorem X11_generations_iterate k s :
  wf_board (sel s currentGen) → wf_board (sel s nextGen) →
  (∀ i c, (i < k)%nat → stdin s !! i = Some c → is_quit c = false) →
  (∀ i, (i < k)%nat →
     Nat.iter (S i) next_grid (sel s currentGen) ≠ Nat.iter i next_grid (sel s currentGen)) →
  ∃ s', generations k s = Some (None, s') ∧
        sel s' currentGen = Nat.iter k next_grid (sel s currentGen) ∧
        (is_int (generationCounter s) →
           generationCounter s' = int_wrap (generationCounter s + Z.of_nat k)) ∧
        (is_int (generationCounter s) →
         generationCounter s + Z.of_nat k ≤ INT_MAX →
           generationCounter s' = generationCounter s + Z.of_nat k) ∧
        stdin s' = drop k (stdin s).
Proof.
  intros Hcur Hnxt Hq Hf.
  destruct (generations_keeps_running k s Hcur Hnxt Hq Hf) as (s' & E & C & G & I).
  exists s'. split; [exact E|]. split; [exact C|]. split; [exact G|].
  split; [|exact I].
  intros Hn Hk. rewrite (G Hn). apply int_wrap_id. unfold is_int in *. lia.
Qed.

Lemma X11_generations_iterate_witness :
  ∃ s', generations 3 (at_loop blinker stale [10; 32]) = Some (None, s') ∧
        sel s' currentGen = Nat.iter 3 next_grid blinker ∧
        (is_int 2 → generationCounter s' = int_wrap (2 + Z.of_nat 3)) ∧
        (is_int 2 → 2 + Z.of_nat 3 ≤ INT_MAX → generationCounter s' = 2 + Z.of_nat 3) ∧
        stdin s' = drop 3 [10; 32].
Proof.
  apply (X11_generations_iterate 3 (at_loop blinker stale [10; 32])).
  - exact blinker_wf.
  - exact stale_wf.
  - intros [|[|[|i]]] c Hi Hc; vm_compute in Hc; try discriminate Hc.
    + injection Hc as <-. vm_compute. reflexivity.
    + injection Hc as <-. vm_compute. reflexivity.
  - intros [|[|[|i]]] Hi; try (exfalso; lia); vm_compute; discriminate.
Defined.

(** X12: how a run of the loop can end.  If it ends in [Stable], [nextGen]
    equals [currentGen] and that board is its own next generation.  If it
    ends in [UserQuit], one of the characters read was [q] or [Q], and
    [nextGen] holds the generation after [currentGen], printed but not
    adopted.  So on an input without [q] and [Q], and on an empty input, the
    run never ends in [UserQuit].  If the loop is still running when the
    passes are used up, the counter was incremented once for each of them. *)
Theorem X12_generations_outcome fuel s :
  wf_board (sel s currentGen) → wf_board (sel s nextGen) →
  ∃ r s',
    generations fuel s = Some (r, s') ∧
    (r = Some Stable →
       sel s' nextGen = sel s' currentGen ∧
       next_grid (sel s' currentGen) = sel s' currentGen) ∧
    (r = Some UserQuit →
       (∃ i c, (i < fuel)%nat ∧ stdin s !! i = Some c ∧ is_quit c = true) ∧
       sel s' nextGen = next_grid (sel s' currentGen)) ∧
    (r = None → is_int (generationCounter s) →
       generationCounter s' = int_wrap (generationCounter s + Z.of_nat fuel)).
Proof.
  intros Hcur Hnxt.
  destruct (generations_passes fuel s Hcur Hnxt)
    as (r & s' & m & E & Hm & G & I & _ & _ & _ & Hr).
  exists r, s'. split; [exact E|]. clear E. destruct r as [[]|].
  - destruct Hr as (Hm0 & C & N & _ & Hst). destruct m as [|p]; [done|].
    cbn [pred] in *. split; [|split; intros [=]].
    intros _. rewrite N, C. split; [exact Hst|]. by rewrite <- Hst at 2.
  - destruct Hr as (Hm0 & C & N & c & Hc & Hcq). destruct m as [|p]; [done|].
    cbn [pred] in *. split; [intros [=]|]. split; [|intros [=]].
    intros _. split; [exists p, c; split; [lia|by split]|]. by rewrite N, C.
  - destruct Hr as (-> & _). split; [intros [=]|]. split; [intros [=]|].
    intros _. exact G.
Qed.

Lemma X12_generations_outcome_witness :
  ∃ r s',
    generations 4 (at_loop blinker stale [10; char_Q; 10]) = Some (r, s') ∧
    (r = Some Stable →
       sel s' nextGen = sel s' currentGen ∧
       next_grid (sel s' currentGen) = sel s' currentGen) ∧
    (r = Some UserQuit →
       (∃ i c, (i < 4)%nat ∧ [10; char_Q; 10] !! i = Some c ∧ is_quit c = true) ∧
       sel s' nextGen = next_grid (sel s' currentGen)) ∧
    (r = None → is_int 2 → generationCounter s' = int_wrap (2 + Z.of_nat 4)).
Proof.
  exact (X12_generations_outcome 4 (at_loop blinker stale [10; char_Q; 10])
           blinker_wf stale_wf).
Defined.

Lemma iter_period_2 (G : grid) :
  next_grid (next_grid G) = G → next_grid G ≠ G →
  ∀ i, Nat.iter (S i) next_grid G ≠ Nat.iter i next_grid G ∧
       Nat.iter (S (S i)) next_grid G = Nat.iter i next_grid G.
Proof.
  intros H2 H1. induction i as [|i [IH1 IH2]].
  - by split.
  - split.
    + rewrite IH2. by intros Heq.
    + rewrite (Nat.iter_succ (S (S i))), IH2. done.
Qed.

(** X13: on a board of period two (its second next generation is the board
    itself, its next generation is not), such as the blinker, and an input
    without [q] and [Q], the loop never ends: it is still running after any
    number of passes, every character of the input that far is gone, and
    [currentGen] holds the board again after an even number of passes. *)
Theorem X13_oscillator_runs_forever fuel s :
  wf_board (sel s currentGen) → wf_board (sel s nextGen) →
  Forall (λ c, is_quit c = false) (stdin s) →
  next_grid (next_grid (sel s currentGen)) = sel s currentGen →
  next_grid (sel s currentGen) ≠ sel s currentGen →
  ∃ s', generations fuel s = Some (None, s') ∧
        stdin s' = drop fuel (stdin s) ∧
        (Nat.Even fuel → sel s' currentGen = sel s currentGen).
Proof.
  intros Hcur Hnxt Hq H2 H1.
  destruct (generations_keeps_running fuel s Hcur Hnxt) as (s' & E & C & _ & I).
  - intros i c _ Hc. apply (proj1 (Forall_forall _ _) Hq), list_elem_of_lookup. by exists i.
  - intros i _. by apply iter_period_2.
  - exists s'. split; [done|]. split; [done|].
    intros [h ->]. rewrite C. clear -H2 H1. induction h as [|h IH]; [done|].
    replace (2 * S h)%nat with (S (S (2 * h))) by lia.
    by rewrite (proj2 (iter_period_2 _ H2 H1 (2 * h)%nat)).
Qed.

Lemma X13_oscillator_runs_forever_witness :
  ∃ s', generations 5 (at_loop blinker stale [10]) = Some (None, s') ∧
        stdin s' = drop 5 [10] ∧
        (Nat.Even 5 → sel s' currentGen = blinker).
Proof.
  apply (X13_oscillator_runs_forever 5 (at_loop blinker stale [10])).
  - exact blinker_wf.
  - exact stale_wf.
  - repeat constructor.
  - vm_compute. reflexivity.
  - vm_compute. discriminate.
Defined.

(** ** The transcript of [main] *)

Lemma console_seed_events tr : Forall seed_event tr → console tr = [].
Proof. apply console_quiet. intros e He Hc. by destruct e. Qed.

Lemma main_init_console s :
  wf_board (sel s currentGen) →
  ∃ s0 s1,
    randomSeed s = Some (tt, s0) ∧
    main_init s = Some (tt, s1) ∧
    sel s1 currentGen = sel s0 currentGen ∧
    wf_board (sel s1 currentGen) ∧
    sel s1 nextGen = sel s nextGen ∧
    generationCounter s1 = 2 ∧
    stdin s1 = stdin s ∧
    console (trace s1) = console (trace s) ++ [Printed 1 (sel s0 currentGen)].
Proof.
  intros Hcur.
  destruct (randomSeed_run s Hcur) as (s0 & E0 & W0 & _ & N0 & _ & I0 & new & T0 & Hnew).
  apply console_seed_events in Hnew.
  exists s0. unfold main_init. rewrite (bind_run _ _ _ _ _ E0).
  eexists. split; [done|]. split; [reflexivity|].
  destruct s0 as [cur0 nxt0 gc0 rs0 rc0 in0 tr0].
  cbn [sel stdin generationCounter mem_currentGen mem_nextGen trace log logs] in *.
  repeat (split; [done|]).
  by rewrite T0, !console_app, Hnew, app_nil_r.
Qed.

(** X14: what [main] sends to the console.  First the seeded board under the
    number 1; then for each pass of the loop the next generation of the board
    printed before it, under the next number, followed by the prompt; and at
    the end the still-life message if and only if the run ended in [Stable].
    So the board printed as generation [n] is generation [n - 1] after the
    seeded one, for as long as the numbers stay below [INT_MAX]: the number
    is an [int], and pass [i] prints under [int_wrap (2 + i)]. *)
Theorem X14_main_transcript fuel s :
  wf_board (sel s currentGen) → wf_board (sel s nextGen) →
  ∃ s0 r s' (m : nat),
    randomSeed s = Some (tt, s0) ∧
    main fuel s = Some (r, s') ∧
    (m ≤ fuel)%nat ∧
    (r = None → m = fuel) ∧
    console (trace s') =
      console (trace s) ++
      [Printed 1 (sel s0 currentGen)] ++
      (seq 0 m ≫= pass_console 2 (sel s0 currentGen)) ++
      still_life_msg r.
Proof.
  intros Hcur Hnxt.
  destruct (main_init_console s Hcur) as (s0 & s1 & E0 & E1 & C1 & W1 & N1 & G1 & _ & T1).
  destruct (generations_passes fuel s1) as (r & s' & m & E & Hm & _ & _ & T & _ & _ & Hr);
    [done|by rewrite N1|].
  rewrite G1 in T. specialize (T ltac:(by vm_compute)).
  exists s0, r, s', m. split; [done|].
  unfold main. rewrite (bind_run _ _ _ _ _ E1).
  split; [done|]. split; [done|]. split.
  - intros ->. apply Hr.
  - rewrite T, T1, C1. by rewrite <- !app_assoc.
Qed.

Lemma X14_main_transcript_witness :
  ∃ s0 r s' (m : nat),
    randomSeed (at_loop stale stale [10; char_q]) = Some (tt, s0) ∧
    main 5 (at_loop stale stale [10; char_q]) = Some (r, s') ∧
    (m ≤ 5)%nat ∧
    (r = None → m = 5%nat) ∧
    console (trace s') =
      console [] ++
      [Printed 1 (sel s0 currentGen)] ++
      (seq 0 m ≫= pass_console 2 (sel s0 currentGen)) ++
      still_life_msg r.
Proof.
  exact (X14_main_transcript 5 (at_loop stale stale [10; char_q]) stale_wf stale_wf).
Defined.

(** The transcript of a run, computed: the seed, two passes, the quit. *)
Example a_transcript :
  (λ p, (p.1, length (console (trace p.2)), generationCounter p.2))
    <$> main 5 (at_loop stale stale [10; char_q]) =
  Some (Some UserQuit, 5%nat, 4).
Proof. vm_compute. reflexivity. Qed.

(** ** [printBoard] *)

Lemma string_length_append (s1 s2 : string) :
  String.length (s1 +:+ s2) = (String.length s1 + String.length s2)%nat.
Proof.
  induction s1 as [|c s1 IH]; [done|].
  change (S (String.length (s1 +:+ s2)) = S (String.length s1 + String.length s2)).
  by rewrite IH.
Qed.

Lemma pretty_digit v : v = 0 ∨ v = 1 → pretty v = String (digit v) EmptyString.
Proof. by intros [-> | ->]. Qed.

Lemma binary_Forall (b : grid) :
  wf_board b → binary b → Forall (Forall (λ v, v = 0 ∨ v = 1)) b.
Proof.
  intros Hwf Hbin. apply Forall_lookup. intros i row Hrow.
  apply Forall_lookup. intros j v Hv.
  apply (Hbin (Z.of_nat i) (Z.of_nat j)). unfold cell_get.
  rewrite !(proj2 (Z.leb_le _ _)) by lia. cbn [andb].
  rewrite !Nat2Z.id, Hrow. exact Hv.
Qed.

(** The boards, cell by cell. *)
Lemma wf_board_cells (b : grid) :
  wf_board b →
  ∃ r0 r1 r2 r3 r4 : Z * Z * Z * Z,
    b = (λ r : Z * Z * Z * Z, [r.1.1.1; r.1.1.2; r.1.2; r.2]) <$> [r0; r1; r2; r3; r4].
Proof.
  intros [Hlen Hrows].
  assert (Hrow : ∀ row : list Z, length row = Z.to_nat COL →
            ∃ r : Z * Z * Z * Z, row = [r.1.1.1; r.1.1.2; r.1.2; r.2]).
  { intros [|a [|a' [|a'' [|a''' [|? ?]]]]] Hl; try discriminate Hl.
    by exists (a, a', a'', a'''). }
  destruct b as [|x0 [|x1 [|x2 [|x3 [|x4 [|? ?]]]]]]; try discriminate Hlen.
  repeat match goal with
         | H : Forall _ (_ :: _) |- _ => apply Forall_cons_1 in H as [?%Hrow H]
         end.
  destruct_and?. repeat match goal with H : ∃ _, _ |- _ => destruct H as [? ->] end.
  by eexists _, _, _, _, _.
Qed.

(** On a board, [printBoard] reads no cell that is not there, and what it
    prints is the text of the board. *)
Lemma printBoard_text_wf (b : grid) msg :
  wf_board b → printBoard_text b msg = Some (board_text b msg).
Proof.
  intros Hwf. destruct (wf_board_cells b Hwf) as (r0 & r1 & r2 & r3 & r4 & ->).
  destruct r0 as [[[? ?] ?] ?], r1 as [[[? ?] ?] ?], r2 as [[[? ?] ?] ?],
           r3 as [[[? ?] ?] ?], r4 as [[[? ?] ?] ?].
  unfold printBoard_text, printBoard_tokens, printBoard_row, board_text, row_text, cell_text.
  generalize (@pretty Z _). intros show. vm_compute. reflexivity.
Qed.

Lemma board_text_digits (b : grid) msg :
  wf_board b → binary b →
  String.length (board_text b msg) = (String.length msg + 1 + Z.to_nat ROW * row_width)%nat ∧
  ∀ x y v, in_bounds x y → cell_get b x y = Some v →
    String.get (digit_at msg x y) (board_text b msg) = Some (digit v).
Proof.
  intros Hwf Hbin. pose proof (binary_Forall b Hwf Hbin) as Hall.
  destruct (wf_board_cells b Hwf) as (r0 & r1 & r2 & r3 & r4 & ->).
  destruct r0 as [[[? ?] ?] ?], r1 as [[[? ?] ?] ?], r2 as [[[? ?] ?] ?],
           r3 as [[[? ?] ?] ?], r4 as [[[? ?] ?] ?].
  cbn [fmap list_fmap fst snd] in *.
  repeat match goal with
         | H : Forall _ (_ :: _) |- _ => apply Forall_cons_1 in H as [? H]
         end.
  cbv beta in *.
  unfold board_text. cbn [foldr]. unfold row_text. cbn [foldr]. unfold cell_text.
  repeat match goal with
         | H : ?v = 0 ∨ ?v = 1 |- context [pretty ?v] => rewrite (pretty_digit v H)
         end.
  split.
  - rewrite string_length_append, <- Nat.add_assoc. f_equal.
  - intros x y v [Hx Hy] Hv. unfold ROW in Hx. unfold COL in Hy.
    unfold digit_at. rewrite <- !Nat.add_assoc, Nat.add_comm, <- String.append_correct2.
    assert (Hxs : x = 0 ∨ x = 1 ∨ x = 2 ∨ x = 3 ∨ x = 4) by lia.
    assert (Hys : y = 0 ∨ y = 1 ∨ y = 2 ∨ y = 3) by lia.
    destruct Hxs as [->|[->|[->|[->| ->]]]], Hys as [->|[->|[->| ->]]];
      vm_compute in Hv; injection Hv as <-; vm_compute; reflexivity.
Qed.


Lemma block_binary : binary block.
Proof.
  apply binary_in_bounds; [exact block_wf|].
  intros x y v [Hx Hy] Hv. unfold ROW in Hx. unfold COL in Hy.
  assert (Hxs : x = 0 ∨ x = 1 ∨ x = 2 ∨ x = 3 ∨ x = 4) by lia.
  assert (Hys : y = 0 ∨ y = 1 ∨ y = 2 ∨ y = 3) by lia.
  destruct Hxs as [->|[->|[->|[->| ->]]]], Hys as [->|[->|[->| ->]]];
    vm_compute in Hv; injection Hv as <-; (by left) || (by right).
Defined.

Lemma blinker_binary : binary blinker.
Proof.
  apply binary_in_bounds; [exact blinker_wf|].
  intros x y v [Hx Hy] Hv. unfold ROW in Hx. unfold COL in Hy.
  assert (Hxs : x = 0 ∨ x = 1 ∨ x = 2 ∨ x = 3 ∨ x = 4) by lia.
  assert (Hys : y = 0 ∨ y = 1 ∨ y = 2 ∨ y = 3) by lia.
  destruct Hxs as [->|[->|[->|[->| ->]]]], Hys as [->|[->|[->| ->]]];
    vm_compute in Hv; injection Hv as <-; (by left) || (by right).
Defined.


(** X16: two boards of 0 and 1 that [printBoard] prints alike under the same
    message are the same board: the print shows every cell. *)
Theorem X16_printBoard_shows_the_board (b1 b2 : grid) msg :
  wf_board b1 → binary b1 → wf_board b2 → binary b2 →
  printBoard_text b1 msg = printBoard_text b2 msg →
  b1 = b2.
Proof.
  intros Hwf1 Hbin1 Hwf2 Hbin2 Heq.
  rewrite !printBoard_text_wf in Heq by done. injection Heq as Heq.
  destruct (board_text_digits b1 msg Hwf1 Hbin1) as [_ Hd1].
  destruct (board_text_digits b2 msg Hwf2 Hbin2) as [_ Hd2].
  apply board_ext; [done..|]. intros x y Hxy.
  destruct (cell_get_in_bounds b1 x y Hwf1 Hxy) as [v1 Hv1].
  destruct (cell_get_in_bounds b2 x y Hwf2 Hxy) as [v2 Hv2].
  specialize (Hd1 x y v1 Hxy Hv1). specialize (Hd2 x y v2 Hxy Hv2).
  rewrite Heq, Hd2 in Hd1. rewrite Hv1, Hv2. f_equal.
  destruct (Hbin1 x y v1 Hv1) as [-> | ->], (Hbin2 x y v2 Hv2) as [-> | ->];
    done || discriminate Hd1.
Qed.

Lemma X16_printBoard_shows_the_board_witness : block = block.
Proof.
  exact (X16_printBoard_shows_the_board block block "Generation 1"
           block_wf block_binary block_wf block_binary eq_refl).
Defined.

(** What the block looks like on the console. *)
Example the_block_printed :
  printBoard_text block "Generation 1" =
  Some ("Generation 1" +:+ endl +:+
        "   0     0     0     0   " +:+ endl +:+
        "   0     1     1     0   " +:+ endl +:+
        "   0     1     1     0   " +:+ endl +:+
        "   0     0     0     0   " +:+ endl +:+
        "   0     0     0     0   " +:+ endl)%string.
Proof. vm_compute. reflexivity. Qed.

(** A cell that holds another [int] is printed with all its digits, and the
    row gets wider. *)
Example a_stale_row_printed :
  (λ b, cout_text <$> printBoard_row b 0) stale =
  Some ("   7     -3     0     1   " +:+ endl)%string.
Proof. vm_compute. reflexivity. Qed.

(** ** The cell itself is not one of its neighbours *)

Lemma neighbors_not_self r c : Forall (λ p, p ≠ (r, c)) (neighbors r c).
Proof.
  unfold neighbors, neighbor_offsets, shift. cbn [fmap list_fmap].
  repeat (apply Forall_cons_2; [cbn [fst snd]; intros [= ? ?]; lia|]).
  apply Forall_nil_2.
Qed.

(** X17: the count of [countNeighbors] for the cell [(r, c)] does not look
    at the cell itself: on two boards that hold 1 at the same places around
    [(r, c)], whatever they hold at [(r, c)], it returns the same number. *)
Theorem X17_countNeighbors_ignores_the_cell board1 board2 r c s t :
  wf_board (sel s board1) → wf_board (sel t board2) →
  (∀ x y, in_bounds x y → around r c x y → (x, y) ≠ (r, c) →
     alive (sel s board1) x y ↔ alive (sel t board2) x y) →
  ∃ n s' t',
    countNeighbors board1 r c s = Some (n, s') ∧
    countNeighbors board2 r c t = Some (n, t').
Proof.
  intros Hs Ht Hsame.
  destruct (countNeighbors_live_neighbors board1 r c s Hs) as (s' & Es & _).
  destruct (countNeighbors_live_neighbors board2 r c t Ht) as (t' & Et & _).
  exists (live_neighbors (sel s board1) r c), s', t'. split; [done|].
  rewrite Et. do 2 f_equal. unfold live_neighbors. do 2 f_equal.
  apply filter_ext_elem. intros [x y] Hp. unfold live_at. cbn [fst snd].
  pose proof (proj1 (Forall_forall _ _) (neighbors_around r c) _ Hp) as Har.
  pose proof (proj1 (Forall_forall _ _) (neighbors_not_self r c) _ Hp) as Hne.
  cbn [fst snd] in Har.
  split; intros [Hxy Hlive]; (split; [done|]); by apply (Hsame x y Hxy Har Hne).
Qed.

Lemma X17_countNeighbors_ignores_the_cell_witness :
  ∃ n s' t',
    countNeighbors currentGen 1 1 (at_loop blinker stale []) = Some (n, s') ∧
    countNeighbors nextGen 1 1
      (at_loop stale [ [0; 0; 0; 0]; [1; 0; 1; 0]; [0; 0; 0; 0]; [1; 1; 1; 1]; [0; 0; 0; 0] ] [])
      = Some (n, t').
Proof.
  apply (X17_countNeighbors_ignores_the_cell currentGen nextGen 1 1
    (at_loop blinker stale [])
    (at_loop stale [ [0; 0; 0; 0]; [1; 0; 1; 0]; [0; 0; 0; 0]; [1; 1; 1; 1]; [0; 0; 0; 0] ] [])).
  - exact blinker_wf.
  - split; [reflexivity|]. repeat constructor.
  - intros x y [Hx Hy] [Hx' Hy'] Hne. unfold ROW, COL in *.
    assert (Hxs : x = 0 ∨ x = 1 ∨ x = 2) by lia.
    assert (Hys : y = 0 ∨ y = 1 ∨ y = 2) by lia.
    destruct Hxs as [->|[->| ->]], Hys as [->|[->| ->]]; vm_compute;
      try (split; intros Heq; try exact Heq; discriminate Heq).
    exfalso. by apply Hne.
Defined.
